(** * The SECD-like bytecode interpreter of [src/runtime/secd.c]

    A shallow embedding of the interpreter: the three segments (code,
    stack, dump) are lists indexed by [Z], the heap of cells is a list
    addressed from 1 (0 is [NULL]), the registers [pc], [sp], [dp] and
    [env] are fields of a machine state, and every instruction is a
    computation in a small state-and-exit monad.  Whatever the C code
    leaves to the language (an access outside a segment, a [NULL]
    dereference) ends the computation with an [Undefined] exit, distinct
    from the exits the program itself produces ([assert], [exit(-1)],
    [return]). *)

From Stdlib Require Import ZArith Lia.
From stdpp Require Import base decidable option list.

Local Open Scope Z_scope.

(** ** What [secd.h] declares

    The header is not part of the sources.  Its constants are taken as
    parameters: the twelve opcode numbers, the capacities of the segments
    and of the heap, and the width of [value_t]. *)

Class Header := {
  LDC : Z; LD : Z; ADD : Z; SUB : Z; MUL : Z; SEL : Z;
  LDF : Z; LDRF : Z; AP : Z; RTN : Z; JOIN : Z; HALT : Z;
  CODE_MAX : Z; STACK_MAX : Z; DUMP_MAX : Z; HEAP_MAX : Z;
  VALUE_BITS : Z
}.

(** [value_t] holds an integer or a pointer without a tag; [env_t] and
    [closure_t*] are addresses of heap cells.  A pointer cast to [value_t]
    and back is the same address. *)
Definition value_t := Z.
Definition env_t := Z.
Definition NULL : Z := 0.

(** [dump_t]: the two fields of a dump entry. *)
Record dump_t := Dump { d_pc : Z; d_env : env_t }.

(** Modelled from the spec: the cell type is declared in [secd.h]; a cell
    is "capable of holding either an Environment node (element + next) or
    a Closure (code address + environment)", two "logically distinct
    record shapes".  The four fields are those the accessors name; a field
    is [None] until something is stored in it. *)
Record cell := Cell {
  c_elm : option value_t; c_next : option env_t;
  c_code : option Z; c_env : option env_t
}.

Definition blank : cell := Cell None None None None.

(** ** Exits *)

Inductive segment := CodeSeg | StackSeg | DumpSeg.

Inductive undefined :=
  | OutOfRange (seg : segment) (i : Z)  (* index outside the array *)
  | BadPointer (p : Z)                  (* NULL or not a cell of the heap *)
  | UnsetField (p : Z).                 (* field read before any store *)

Inductive assertion :=
  | EnvNotNull   (* assert(env != NULL)            in lookup *)
  | SpInRange    (* assert(sp>=0 && sp<STACK_MAX)  *)
  | DpInRange    (* assert(dp>=0 && dp<DUMP_MAX)   *)
  | PcInRange.   (* assert(pc>=0 && pc<CODE_MAX)   *)

Inductive exit :=
  | Returned (v : value_t)                      (* return stack[--sp] *)
  | InvalidOpcode (opcode pc : Z) (status : Z)  (* fprintf(stderr, ...); exit(status) *)
  | AssertFailed (a : assertion)                (* a failed assert aborts *)
  | Undefined (u : undefined)                   (* undefined behaviour of C *)
  | HeapExhausted.                              (* alloc_cell has no cell left *)

Inductive res (A : Type) :=
  | Ok (a : A)
  | Stop (e : exit).
Arguments Ok {A} a.
Arguments Stop {A} e.

(** ** Arrays indexed by a C [int] *)

Definition zget {A} (l : list A) (i : Z) : option A :=
  if decide (0 <= i) then l !! Z.to_nat i else None.

Definition zset {A} (l : list A) (i : Z) (x : A) : list A :=
  <[Z.to_nat i := x]> l.

Definition in_range {A} (l : list A) (i : Z) : Prop :=
  0 <= i < Z.of_nat (length l).

(** [array_read seg l i] is [l[i]]; outside the array the behaviour is
    undefined. *)
Definition array_read {A} (seg : segment) (l : list A) (i : Z) : res A :=
  match zget l i with
  | Some x => Ok x
  | None => Stop (Undefined (OutOfRange seg i))
  end.

Definition array_write {A} (seg : segment) (l : list A) (i : Z) (x : A)
  : res (list A) :=
  match zget l i with
  | Some _ => Ok (zset l i x)
  | None => Stop (Undefined (OutOfRange seg i))
  end.

(** ** The monad of the interpreter: a state, and an exit that ends it *)

Definition ST (S A : Type) : Type := S -> res (A * S).

Definition ret {S A} (a : A) : ST S A := fun s => Ok (a, s).

Definition bind {S A B} (m : ST S A) (k : A -> ST S B) : ST S B :=
  fun s => match m s with
           | Ok (a, s') => k a s'
           | Stop e => Stop e
           end.

Definition leave {S A} (e : exit) : ST S A := fun _ => Stop e.

Definition get {S} : ST S S := fun s => Ok (s, s).

(** [assert(b)]: go on when [b] holds, abort otherwise. *)
Definition assert {S} (b : bool) (a : assertion) : ST S unit :=
  if b then ret tt else leave (AssertFailed a).

Definition lift_res {S A} (r : res A) : ST S A :=
  fun s => match r with Ok a => Ok (a, s) | Stop e => Stop e end.

Notation "x <- m ;; k" := (bind m (fun x => k))
  (at level 100, m at next level, right associativity).
Notation "m ;; k" := (bind m (fun _ => k))
  (at level 100, right associativity).

(** ** The heap of cells *)

Definition heap := list cell.

(** The cell a pointer designates: address [p >= 1] is the cell of index
    [p - 1]; [NULL] designates none. *)
Definition cell_at (h : heap) (p : Z) : option cell := zget h (p - 1).

Section Machine.
Context `{Header}.

(** Modelled from the spec: the allocator [alloc_cell] is declared in
    [secd.h] and defined outside [src/]; it "returns a fresh, uniquely
    addressable cell" from a "bump-allocated, never-freed heap" whose
    capacity is fixed by [init_heap(HEAP_MAX)].  The fresh cell is the one
    past the cells handed out so far, and holds nothing yet. *)
Definition alloc_cell : ST heap Z :=
  fun h =>
    if decide (Z.of_nat (length h) < HEAP_MAX)
    then Ok (Z.of_nat (length h) + 1, h ++ [blank])
    else Stop HeapExhausted.

(** Modelled from the spec: the accessors [GET_ELM], [GET_NEXT],
    [GET_CODE], [GET_ENV] and the mutators [SET_ELM], [SET_NEXT],
    [SET_CODE], [SET_ENV] are macros of [secd.h]; they read and write
    "a cell's element/next (environment) or code/env (closure) fields".
    Through a pointer that designates no cell they are undefined. *)
Definition get_field {A} (f : cell -> option A) (p : Z) : ST heap A :=
  fun h =>
    match cell_at h p with
    | Some c => match f c with
                | Some x => Ok (x, h)
                | None => Stop (Undefined (UnsetField p))
                end
    | None => Stop (Undefined (BadPointer p))
    end.

(** Modelled from the spec: the mutators of [secd.h], which store into
    one field of the cell a pointer designates. *)
Definition set_field (upd : cell -> cell) (p : Z) : ST heap unit :=
  fun h =>
    match cell_at h p with
    | Some c => Ok (tt, zset h (p - 1) (upd c))
    | None => Stop (Undefined (BadPointer p))
    end.

Definition GET_ELM : Z -> ST heap value_t := get_field c_elm.
Definition GET_NEXT : Z -> ST heap env_t := get_field c_next.
Definition GET_CODE : Z -> ST heap Z := get_field c_code.
Definition GET_ENV : Z -> ST heap env_t := get_field c_env.

Definition SET_ELM (p : Z) (v : value_t) : ST heap unit :=
  set_field (fun c => Cell (Some v) (c_next c) (c_code c) (c_env c)) p.
Definition SET_NEXT (p : Z) (e : env_t) : ST heap unit :=
  set_field (fun c => Cell (c_elm c) (Some e) (c_code c) (c_env c)) p.
Definition SET_CODE (p : Z) (a : Z) : ST heap unit :=
  set_field (fun c => Cell (c_elm c) (c_next c) (Some a) (c_env c)) p.
Definition SET_ENV (p : Z) (e : env_t) : ST heap unit :=
  set_field (fun c => Cell (c_elm c) (c_next c) (c_code c) (Some e)) p.

(** [extend]: cons a value on to an environment. *)
Definition extend (elm : value_t) (env : env_t) : ST heap env_t :=
  nenv <- alloc_cell ;;
  SET_ELM nenv elm ;;
  SET_NEXT nenv env ;;
  ret nenv.

(** The [while (n > 0)] loop of [lookup], run [k] times. *)
Fixpoint lookup_walk (k : nat) (env : env_t) : ST heap env_t :=
  match k with
  | O => ret env
  | S k' =>
      assert (negb (env =? NULL)) EnvNotNull ;;
      env' <- GET_NEXT env ;;
      lookup_walk k' env'
  end.

(** [lookup]: the loop runs [n] times for a positive [n] and not at all
    otherwise; the result is the element of the node reached. *)
Definition lookup (n : Z) (env : env_t) : ST heap value_t :=
  env' <- lookup_walk (Z.to_nat n) env ;;
  GET_ELM env'.

(** [mkclosure]: allocate a new closure. *)
Definition mkclosure (pc : Z) (env : env_t) : ST heap Z :=
  ptr <- alloc_cell ;;
  SET_CODE ptr pc ;;
  SET_ENV ptr env ;;
  ret ptr.


(** ** The machine state

    The registers of [interp] together with the segments and the heap
    they point into.  [pc], [sp] and [dp] are C [int]s; they are kept as
    integers without a width, the [assert]s at the end of an iteration
    holding them within the capacities, far from the limits of [int]. *)
Record state := State {
  pc : Z;                 (* program counter *)
  sp : Z;                 (* stack pointer *)
  dp : Z;                 (* dump pointer *)
  env : env_t;            (* environment pointer *)
  stack : list value_t;   (* stack segment *)
  dump : list dump_t;     (* dump segment *)
  cells : heap
}.

Definition M := ST state.

Definition set_pc (v : Z) : M unit :=
  fun s => Ok (tt, State v (sp s) (dp s) (env s) (stack s) (dump s) (cells s)).
Definition set_sp (v : Z) : M unit :=
  fun s => Ok (tt, State (pc s) v (dp s) (env s) (stack s) (dump s) (cells s)).
Definition set_dp (v : Z) : M unit :=
  fun s => Ok (tt, State (pc s) (sp s) v (env s) (stack s) (dump s) (cells s)).
Definition set_env (v : env_t) : M unit :=
  fun s => Ok (tt, State (pc s) (sp s) (dp s) v (stack s) (dump s) (cells s)).
Definition set_stack (v : list value_t) : M unit :=
  fun s => Ok (tt, State (pc s) (sp s) (dp s) (env s) v (dump s) (cells s)).
Definition set_dump (v : list dump_t) : M unit :=
  fun s => Ok (tt, State (pc s) (sp s) (dp s) (env s) (stack s) v (cells s)).

Definition reg {A} (r : state -> A) : M A := fun s => Ok (r s, s).

(** Run a heap operation on the heap of the machine. *)
Definition on_heap {A} (m : ST heap A) : M A :=
  fun s =>
    match m (cells s) with
    | Ok (a, h) =>
        Ok (a, State (pc s) (sp s) (dp s) (env s) (stack s) (dump s) h)
    | Stop e => Stop e
    end.

(** Modelled from the spec: [value_t] is declared in [secd.h]; a value is
    "a machine word that is either a signed integer or an opaque
    reference".  With [VALUE_BITS] the width of that word, the result of an
    arithmetic operation, and an [int] converted to [value_t], is reduced
    into [-2^(VALUE_BITS-1) .. 2^(VALUE_BITS-1) - 1]. *)
Definition to_value (z : Z) : value_t :=
  (z + 2 ^ (VALUE_BITS - 1)) mod 2 ^ VALUE_BITS - 2 ^ (VALUE_BITS - 1).

Inductive instr :=
  | iLDC | iLD | iADD | iSUB | iMUL | iSEL
  | iLDF | iLDRF | iAP | iRTN | iJOIN | iHALT.

(** The [case] labels of the [switch], in the order they are written. *)
Definition case_labels : list (Z * instr) :=
  [ (LDC, iLDC); (LD, iLD); (ADD, iADD); (SUB, iSUB); (MUL, iMUL);
    (SEL, iSEL); (LDF, iLDF); (LDRF, iLDRF); (AP, iAP); (RTN, iRTN);
    (JOIN, iJOIN); (HALT, iHALT) ].

(** [switch(opcode)]: the case whose label equals [opcode], or [None] for
    [default]. *)
Definition decode (opcode : Z) : option instr :=
  snd <$> List.find (fun c => fst c =? opcode) case_labels.

(** A C compiler accepts the [switch] only if no two labels are equal. *)
Definition distinct_opcodes : Prop := NoDup (fst <$> case_labels).

Section Interp.
Variable code : list Z.   (* code segment *)

(** [code[i]] *)
Definition code_at (i : Z) : M Z := lift_res (array_read CodeSeg code i).

(** [code[pc++]] *)
Definition fetch : M Z :=
  p <- reg pc ;;
  w <- code_at p ;;
  set_pc (p + 1) ;;
  ret w.

(** [stack[sp++] = v] *)
Definition push (v : value_t) : M unit :=
  p <- reg sp ;;
  stk <- reg stack ;;
  stk' <- lift_res (array_write StackSeg stk p v) ;;
  set_stack stk' ;;
  set_sp (p + 1).

(** [stack[--sp]] *)
Definition pop : M value_t :=
  p <- reg sp ;;
  set_sp (p - 1) ;;
  stk <- reg stack ;;
  lift_res (array_read StackSeg stk (p - 1)).

(** [dump[i].pc = v] and [dump[i].env = e] *)
Definition store_dump_pc (i : Z) (v : Z) : M unit :=
  dmp <- reg dump ;;
  d <- lift_res (array_read DumpSeg dmp i) ;;
  set_dump (zset dmp i (Dump v (d_env d))).

Definition store_dump_env (i : Z) (e : env_t) : M unit :=
  dmp <- reg dump ;;
  d <- lift_res (array_read DumpSeg dmp i) ;;
  set_dump (zset dmp i (Dump (d_pc d) e)).

(** [dump[i]] *)
Definition load_dump (i : Z) : M dump_t :=
  dmp <- reg dump ;;
  lift_res (array_read DumpSeg dmp i).

(** The body of the [switch] for each [case], and for [default]. *)
Definition exec (opcode : Z) : M unit :=
  match decode opcode with
  | Some iLDC =>
      opa <- fetch ;;                       (* fetch operand *)
      push (to_value opa)                   (* push it *)
  | Some iLD =>
      t <- fetch ;;                         (* fetch index *)
      e <- reg env ;;
      v <- on_heap (lookup t e) ;;          (* lookup in environment *)
      push v                                (* and push it *)
  | Some iADD =>
      opa <- pop ;;
      opb <- pop ;;
      push (to_value (opa + opb))
  | Some iSUB =>
      opa <- pop ;;
      opb <- pop ;;
      push (to_value (opb - opa))           (* order matters here *)
  | Some iMUL =>
      opa <- pop ;;
      opb <- pop ;;
      push (to_value (opa * opb))
  | Some iSEL =>
      opa <- pop ;;                         (* integer on top of stack *)
      p <- reg pc ;;
      d <- reg dp ;;
      store_dump_pc d (p + 2) ;;            (* save PC on dump *)
      set_dp (d + 1) ;;
      if opa =? 0
      then (t <- code_at p ;; set_pc t)
      else (t <- code_at (p + 1) ;; set_pc t)
  | Some iLDF =>
      t <- fetch ;;                         (* fetch code address *)
      e <- reg env ;;
      cptr <- on_heap (mkclosure t e) ;;    (* make a new closure *)
      push cptr                             (* push it *)
  | Some iLDRF =>
      t <- fetch ;;                         (* fetch code address *)
      e <- reg env ;;
      nenv <- on_heap (extend NULL e) ;;
      cptr <- on_heap (mkclosure t nenv) ;;
      on_heap (SET_ELM nenv cptr) ;;        (* tie the knot in the environment *)
      push cptr                             (* push closure *)
  | Some iAP =>
      opa <- pop ;;                         (* function argument *)
      cptr <- pop ;;                        (* function closure *)
      p <- reg pc ;;
      d <- reg dp ;;
      e <- reg env ;;
      store_dump_pc d p ;;                  (* save registers on dump *)
      store_dump_env d e ;;
      set_dp (d + 1) ;;
      cenv <- on_heap (GET_ENV cptr) ;;
      nenv <- on_heap (extend opa cenv) ;;  (* augment environment *)
      set_env nenv ;;
      t <- on_heap (GET_CODE cptr) ;;       (* jump to code address in closure *)
      set_pc t
  | Some iRTN =>
      d <- reg dp ;;
      set_dp (d - 1) ;;                     (* restore registers *)
      f <- load_dump (d - 1) ;;
      set_pc (d_pc f) ;;
      set_env (d_env f)
  | Some iJOIN =>
      d <- reg dp ;;
      set_dp (d - 1) ;;
      f <- load_dump (d - 1) ;;
      set_pc (d_pc f)                       (* restore PC *)
  | Some iHALT =>
      v <- pop ;;
      leave (Returned v)                    (* return top of stack *)
  | None =>
      p <- reg pc ;;
      leave (InvalidOpcode opcode p (-1))
  end.

(** The three [assert]s that end an iteration: check register bounds. *)
Definition check_bounds : M unit :=
  s <- get ;;
  assert ((0 <=? sp s) && (sp s <? STACK_MAX)) SpInRange ;;
  assert ((0 <=? dp s) && (dp s <? DUMP_MAX)) DpInRange ;;
  assert ((0 <=? pc s) && (pc s <? CODE_MAX)) PcInRange.

(** One iteration of the [for (;;)] loop. *)
Definition step : M unit :=
  opcode <- fetch ;;          (* fetch next opcode *)
  exec opcode ;;
  check_bounds.

(** The loop, for at most [fuel] iterations: [Some e] when the loop is
    left with exit [e], [None] when it is still running. *)
Fixpoint run (fuel : nat) (s : state) : option exit :=
  match fuel with
  | O => None
  | S fuel' =>
      match step s with
      | Ok (_, s') => run fuel' s'
      | Stop e => Some e
      end
  end.

(** The registers as [interp] initialises them. *)
Definition initial (stack0 : list value_t) (dump0 : list dump_t) (h : heap)
  : state :=
  State 0 0 0 NULL stack0 dump0 h.

(** [interp], on segments whose contents [malloc] left as [stack0] and
    [dump0], and the heap as [init_heap] left it. *)
Definition interp (fuel : nat) (stack0 : list value_t) (dump0 : list dump_t)
  : option exit :=
  run fuel (initial stack0 dump0 []).

End Interp.
End Machine.

(** A header for running the machine on examples: opcodes numbered in the
    order of the [switch], small segments, and a [value_t] of 32 bits (as
    where [int] and pointers have the same width). *)
Definition sample_header : Header :=
  {| LDC := 0; LD := 1; ADD := 2; SUB := 3; MUL := 4; SEL := 5;
     LDF := 6; LDRF := 7; AP := 8; RTN := 9; JOIN := 10; HALT := 11;
     CODE_MAX := 64; STACK_MAX := 16; DUMP_MAX := 16; HEAP_MAX := 32;
     VALUE_BITS := 32 |}.

(** Segments of the sizes of [sample_header]: a stack and a dump holding
    zeros, and a code segment with a program loaded at its start. *)
Definition sample_stack : list value_t := replicate 16 0.
Definition sample_dump : list dump_t := replicate 16 (Dump 0 NULL).
Definition sample_code (prog : list Z) : list Z :=
  prog ++ replicate (64 - length prog) 0.

(** [LDF 6; LDC 7; AP; HALT], and at 6 the body [LD 0; RTN]. *)
Definition call_program : list Z := [6; 6; 0; 7; 8; 11; 1; 0; 9].

(** The machine about to execute the [AP] of [call_program]: the closure
    (cell 1) and the argument 7 are on the stack. *)
Definition call_state : state :=
  State 4 2 0 NULL (1 :: 7 :: replicate 14 0) sample_dump
    [Cell None None (Some 6) (Some NULL)].

(** The states [call_program] goes through after that [AP]: in the body,
    at its [RTN], and back in the caller. *)
Definition call_body_state : state :=
  State 6 0 1 2 (1 :: 7 :: replicate 14 0)
    (Dump 5 0 :: replicate 15 (Dump 0 0))
    [Cell None None (Some 6) (Some NULL); Cell (Some 7) (Some NULL) None None].

Definition call_return_state : state :=
  State 8 1 1 2 (7 :: 7 :: replicate 14 0)
    (Dump 5 0 :: replicate 15 (Dump 0 0))
    [Cell None None (Some 6) (Some NULL); Cell (Some 7) (Some NULL) None None].

Definition call_after_state : state :=
  State 5 1 0 NULL (7 :: 7 :: replicate 14 0)
    (Dump 5 0 :: replicate 15 (Dump 0 0))
    [Cell None None (Some 6) (Some NULL); Cell (Some 7) (Some NULL) None None].

(** [LDC 0; SEL 6 9; HALT], at 6 [LDC 1; JOIN], at 9 [LDC 2; JOIN]. *)
Definition branch_program : list Z :=
  [0; 0; 5; 6; 9; 11; 0; 1; 10; 0; 2; 10].

(** The machine about to execute the [SEL] of [branch_program]. *)
Definition branch_state : state :=
  State 2 1 0 NULL sample_stack sample_dump [].

(** The registers lie in the ranges the three [assert]s demand. *)
Definition in_bounds `{Header} (s : state) : Prop :=
  0 <= sp s < STACK_MAX /\ 0 <= dp s < DUMP_MAX /\ 0 <= pc s < CODE_MAX.

(** [env_list h env vs]: in heap [h] the chain of [NEXT] pointers from
    [env] reaches [NULL], and its nodes hold the values [vs] in order.
    The length of [vs] is the length of the environment. *)
Inductive env_list (h : heap) : env_t -> list value_t -> Prop :=
  | env_list_null : env_list h NULL []
  | env_list_node p c v q vs :
      cell_at h p = Some c ->
      c_elm c = Some v ->
      c_next c = Some q ->
      env_list h q vs ->
      env_list h p (v :: vs).

(** [run_above code d s s']: the machine runs from [s] to [s'] in zero or
    more iterations, its dump pointer above [d] all the way.  This is the
    execution of a callee, or of a branch, whose frame sits at [dump[d]]:
    nested frames may come and go, the frame at [d] is not popped. *)
Inductive run_above `{Header} (code : list Z) (d : Z) : state -> state -> Prop :=
  | run_above_here s :
      d < dp s ->
      run_above code d s s
  | run_above_step s s' s'' :
      d < dp s ->
      step code s = Ok (tt, s') ->
      run_above code d s' s'' ->
      run_above code d s s''.

(** ** The iteration, instruction by instruction *)

(** The instruction the next iteration dispatches on: the [case] of the
    word at [pc]. *)
Definition instr_at `{Header} (code : list Z) (s : state) : option instr :=
  match zget code (pc s) with
  | Some opcode => decode opcode
  | None => None
  end.

(** How many [stack[--sp]] and how many [stack[sp++] = ..] the [case] of
    an instruction has. *)
Definition pops (i : instr) : Z :=
  match i with
  | iADD | iSUB | iMUL | iAP => 2
  | iSEL | iHALT => 1
  | iLDC | iLD | iLDF | iLDRF | iRTN | iJOIN => 0
  end.

Definition pushes (i : instr) : Z :=
  match i with
  | iLDC | iLD | iLDF | iLDRF | iADD | iSUB | iMUL => 1
  | iSEL | iAP | iRTN | iJOIN | iHALT => 0
  end.

(** [step_spec code i s s']: the state [s'] in which an iteration on
    instruction [i] leaves the machine, in terms of the state [s] it
    started in, and what it found in the segments and the heap on the
    way.  [HALT] leaves no state. *)
Definition step_spec `{Header} (code : list Z) (i : instr) (s s' : state)
  : Prop :=
  let fresh := Z.of_nat (length (cells s)) + 1 in
  match i with
  | iLDC =>
      exists a,
        zget code (pc s + 1) = Some a /\
        in_range (stack s) (sp s) /\
        s' = State (pc s + 2) (sp s + 1) (dp s) (env s)
               (zset (stack s) (sp s) (to_value a)) (dump s) (cells s)
  | iLD =>
      exists t v,
        zget code (pc s + 1) = Some t /\
        lookup t (env s) (cells s) = Ok (v, cells s) /\
        in_range (stack s) (sp s) /\
        s' = State (pc s + 2) (sp s + 1) (dp s) (env s)
               (zset (stack s) (sp s) v) (dump s) (cells s)
  | iADD =>
      exists a b,
        zget (stack s) (sp s - 1) = Some a /\
        zget (stack s) (sp s - 2) = Some b /\
        s' = State (pc s + 1) (sp s - 1) (dp s) (env s)
               (zset (stack s) (sp s - 2) (to_value (a + b)))
               (dump s) (cells s)
  | iSUB =>
      exists a b,
        zget (stack s) (sp s - 1) = Some a /\
        zget (stack s) (sp s - 2) = Some b /\
        s' = State (pc s + 1) (sp s - 1) (dp s) (env s)
               (zset (stack s) (sp s - 2) (to_value (b - a)))
               (dump s) (cells s)
  | iMUL =>
      exists a b,
        zget (stack s) (sp s - 1) = Some a /\
        zget (stack s) (sp s - 2) = Some b /\
        s' = State (pc s + 1) (sp s - 1) (dp s) (env s)
               (zset (stack s) (sp s - 2) (to_value (a * b)))
               (dump s) (cells s)
  | iSEL =>
      exists cond target d0,
        zget (stack s) (sp s - 1) = Some cond /\
        zget (dump s) (dp s) = Some d0 /\
        zget code (if cond =? 0 then pc s + 1 else pc s + 2) = Some target /\
        s' = State target (sp s - 1) (dp s + 1) (env s) (stack s)
               (zset (dump s) (dp s) (Dump (pc s + 3) (d_env d0)))
               (cells s)
  | iLDF =>
      exists t,
        zget code (pc s + 1) = Some t /\
        in_range (stack s) (sp s) /\
        s' = State (pc s + 2) (sp s + 1) (dp s) (env s)
               (zset (stack s) (sp s) fresh) (dump s)
               (cells s ++ [Cell None None (Some t) (Some (env s))])
  | iLDRF =>
      exists t,
        zget code (pc s + 1) = Some t /\
        in_range (stack s) (sp s) /\
        s' = State (pc s + 2) (sp s + 1) (dp s) (env s)
               (zset (stack s) (sp s) (fresh + 1)) (dump s)
               (cells s ++ [Cell (Some (fresh + 1)) (Some (env s)) None None;
                            Cell None None (Some t) (Some fresh)])
  | iAP =>
      exists arg cptr c cenv centry,
        zget (stack s) (sp s - 1) = Some arg /\
        zget (stack s) (sp s - 2) = Some cptr /\
        cell_at (cells s) cptr = Some c /\
        c_env c = Some cenv /\
        c_code c = Some centry /\
        in_range (dump s) (dp s) /\
        s' = State centry (sp s - 2) (dp s + 1) fresh (stack s)
               (zset (dump s) (dp s) (Dump (pc s + 1) (env s)))
               (cells s ++ [Cell (Some arg) (Some cenv) None None])
  | iRTN =>
      exists f,
        zget (dump s) (dp s - 1) = Some f /\
        s' = State (d_pc f) (sp s) (dp s - 1) (d_env f) (stack s)
               (dump s) (cells s)
  | iJOIN =>
      exists f,
        zget (dump s) (dp s - 1) = Some f /\
        s' = State (d_pc f) (sp s) (dp s - 1) (env s) (stack s)
               (dump s) (cells s)
  | iHALT => False
  end.

(** [reaches code s s']: the loop gets from [s] to [s'] in zero or more
    iterations. *)
Inductive reaches `{Header} (code : list Z) : state -> state -> Prop :=
  | reaches_here s :
      reaches code s s
  | reaches_step s s' s'' :
      step code s = Ok (tt, s') ->
      reaches code s' s'' ->
      reaches code s s''.

(** [balanced code s s']: an execution from [s] to [s'] in which every
    [AP] is followed, after a balanced execution of the callee, by the
    [RTN] that ends it, and every [SEL], after a balanced execution of the
    branch, by its [JOIN]; the other instructions may come anywhere. *)
Inductive balanced `{Header} (code : list Z) : state -> state -> Prop :=
  | balanced_here s :
      balanced code s s
  | balanced_plain s s1 s2 i :
      instr_at code s = Some i ->
      i <> iAP -> i <> iRTN -> i <> iSEL -> i <> iJOIN ->
      step code s = Ok (tt, s1) ->
      balanced code s1 s2 ->
      balanced code s s2
  | balanced_call s s1 s2 s3 s4 :
      instr_at code s = Some iAP ->
      step code s = Ok (tt, s1) ->
      balanced code s1 s2 ->
      instr_at code s2 = Some iRTN ->
      step code s2 = Ok (tt, s3) ->
      balanced code s3 s4 ->
      balanced code s s4
  | balanced_branch s s1 s2 s3 s4 :
      instr_at code s = Some iSEL ->
      step code s = Ok (tt, s1) ->
      balanced code s1 s2 ->
      instr_at code s2 = Some iJOIN ->
      step code s2 = Ok (tt, s3) ->
      balanced code s3 s4 ->
      balanced code s s4.


(** ** Reading the bytecode *)

(** The [FILE] that [read_code] reads, as [feof] and [fscanf] present
    it: the integers of the text still to be read, and the end-of-file
    indicator.  The text is a sequence of integers separated by white
    space. *)
Record file := File { pending : list Z; at_eof : bool }.

(** [feof(f)] *)
Definition feof (f : file) : bool := at_eof f.

(** [fscanf(f, "%d\n", &data)]: the next integer goes to [data], and the
    white space after it is skipped; running into the end of the text,
    after the last integer or with no integer left to convert, sets the
    indicator.  With no integer to convert [data] keeps the value it
    had. *)
Definition fscanf_d (f : file) (data : Z) : file * Z :=
  match pending f with
  | x :: rest => (File rest (match rest with [] => true | _ => false end), x)
  | [] => (File [] true, data)
  end.

(** The [while] loop of [read_code], for at most [n] iterations; [i] and
    [data] are the locals, [code] the code segment. *)
Fixpoint read_loop `{Header} (n : nat) (f : file) (i data : Z)
    (code : list Z) : res (Z * list Z) :=
  match n with
  | O => Ok (i, code)
  | S n' =>
      if negb (feof f) && (i <? CODE_MAX) then
        let '(f', data') := fscanf_d f data in
        match array_write CodeSeg code i data' with
        | Ok code' => read_loop n' f' (i + 1) data' code'
        | Stop e => Stop e
        end
      else Ok (i, code)
  end.

(** [read_code]: read bytecode into memory; returns the number of entries
    read, here together with the code segment.  [i] starts at 0 and the
    loop goes on only while [i < CODE_MAX], so [CODE_MAX] iterations are
    all it can make.  [data0] is what the uninitialised [data] holds. *)
Definition read_code `{Header} (f : file) (data0 : Z) (code : list Z)
  : res (Z * list Z) :=
  read_loop (Z.to_nat CODE_MAX) f 0 data0 code.

(** ** Arrays *)

Lemma zget_Some_range {A} (l : list A) i x :
  zget l i = Some x -> in_range l i.
Proof.
  unfold zget, in_range. case_decide; [|done].
  intros Hl. apply lookup_lt_Some in Hl. lia.
Qed.

Lemma zget_in_range {A} (l : list A) i :
  in_range l i -> exists x, zget l i = Some x.
Proof.
  unfold zget, in_range. intros [? ?]. rewrite decide_True by done.
  apply lookup_lt_is_Some. lia.
Qed.

Lemma zget_zset_eq {A} (l : list A) i x :
  in_range l i -> zget (zset l i x) i = Some x.
Proof.
  unfold zget, zset, in_range. intros [? ?]. rewrite decide_True by done.
  apply list_lookup_insert_eq. lia.
Qed.

Lemma zget_zset_ne {A} (l : list A) i j x :
  0 <= i -> i <> j -> zget (zset l i x) j = zget l j.
Proof.
  unfold zget, zset. intros ? ?. case_decide; [|done].
  apply list_lookup_insert_ne. lia.
Qed.

Lemma zget_app_l {A} (l k : list A) i x :
  zget l i = Some x -> zget (l ++ k) i = Some x.
Proof.
  unfold zget. case_decide; [|done]. intros Hl.
  by apply lookup_app_l_Some.
Qed.

Lemma zget_snoc {A} (l : list A) x :
  zget (l ++ [x]) (Z.of_nat (length l)) = Some x.
Proof.
  unfold zget. rewrite decide_True by lia. rewrite Nat2Z.id.
  by rewrite lookup_app_r, Nat.sub_diag.
Qed.

Lemma zset_snoc {A} (l : list A) x y :
  zset (l ++ [x]) (Z.of_nat (length l)) y = l ++ [y].
Proof.
  unfold zset. rewrite Nat2Z.id.
  replace (length l) with (length l + 0)%nat at 1 by lia.
  by rewrite insert_app_r.
Qed.

Lemma zset_app_l {A} (l k : list A) i x :
  in_range l i -> zset (l ++ k) i x = zset l i x ++ k.
Proof.
  unfold zset, in_range. intros [? ?]. apply insert_app_l. lia.
Qed.

Lemma length_zset {A} (l : list A) i x : length (zset l i x) = length l.
Proof. apply length_insert. Qed.

(** ** The heap operations *)

Section HeapFacts.
Context `{Header}.

Lemma cell_at_app_l (h k : heap) p c :
  cell_at h p = Some c -> cell_at (h ++ k) p = Some c.
Proof. apply zget_app_l. Qed.

Lemma cell_at_null (h : heap) : cell_at h NULL = None.
Proof. done. Qed.

Lemma alloc_cell_ok (h : heap) :
  Z.of_nat (length h) < HEAP_MAX ->
  alloc_cell h = Ok (Z.of_nat (length h) + 1, h ++ [blank]).
Proof. intros. unfold alloc_cell. by rewrite decide_True. Qed.

Lemma set_field_fresh (h : heap) c upd :
  set_field upd (Z.of_nat (length h) + 1) (h ++ [c]) = Ok (tt, h ++ [upd c]).
Proof.
  unfold set_field, cell_at.
  replace (Z.of_nat (length h) + 1 - 1) with (Z.of_nat (length h)) by lia.
  by rewrite zget_snoc, zset_snoc.
Qed.

Lemma extend_ok v e (h : heap) :
  Z.of_nat (length h) < HEAP_MAX ->
  extend v e h
  = Ok (Z.of_nat (length h) + 1, h ++ [Cell (Some v) (Some e) None None]).
Proof.
  intros. unfold extend, bind. rewrite alloc_cell_ok by done.
  unfold SET_ELM, SET_NEXT. by rewrite !set_field_fresh.
Qed.

Lemma mkclosure_ok a e (h : heap) :
  Z.of_nat (length h) < HEAP_MAX ->
  mkclosure a e h
  = Ok (Z.of_nat (length h) + 1, h ++ [Cell None None (Some a) (Some e)]).
Proof.
  intros. unfold mkclosure, bind. rewrite alloc_cell_ok by done.
  unfold SET_CODE, SET_ENV. by rewrite !set_field_fresh.
Qed.

Lemma extend_full v e (h : heap) :
  HEAP_MAX <= Z.of_nat (length h) -> extend v e h = Stop HeapExhausted.
Proof.
  intros. unfold extend, bind, alloc_cell. by rewrite decide_False by lia.
Qed.

Lemma mkclosure_full a e (h : heap) :
  HEAP_MAX <= Z.of_nat (length h) -> mkclosure a e h = Stop HeapExhausted.
Proof.
  intros. unfold mkclosure, bind, alloc_cell. by rewrite decide_False by lia.
Qed.

Lemma get_field_ok {A} (f : cell -> option A) p (h : heap) c x :
  cell_at h p = Some c -> f c = Some x -> get_field f p h = Ok (x, h).
Proof. intros Hc Hf. unfold get_field. by rewrite Hc, Hf. Qed.

Lemma get_field_heap {A} (f : cell -> option A) p (h h' : heap) x :
  get_field f p h = Ok (x, h') ->
  h' = h /\ exists c, cell_at h p = Some c /\ f c = Some x.
Proof.
  unfold get_field. destruct (cell_at h p) as [c|]; [|done].
  destruct (f c) eqn:?; [|done]. intros [= <- <-]. eauto.
Qed.

End HeapFacts.

(** ** [lookup] and [extend] *)

Section EnvFacts.
Context `{Header}.

Lemma lookup_walk_heap k e (h h' : heap) e' :
  lookup_walk k e h = Ok (e', h') -> h' = h.
Proof.
  revert e. induction k as [|k IH]; intros e; simpl.
  - by intros [= _ <-].
  - unfold bind, assert. destruct (negb (e =? NULL)); [|done]. simpl.
    destruct (GET_NEXT e h) as [[q h1]|] eqn:Hq; [|done].
    apply get_field_heap in Hq as [-> _]. apply IH.
Qed.

Lemma lookup_heap n e (h h' : heap) x :
  lookup n e h = Ok (x, h') -> h' = h.
Proof.
  unfold lookup, bind.
  destruct (lookup_walk _ e h) as [[e' h1]|] eqn:Hw; [|done].
  apply lookup_walk_heap in Hw as ->.
  intros Hg. by apply get_field_heap in Hg as [-> _].
Qed.

Lemma lookup_walk_node k p (h : heap) c q :
  cell_at h p = Some c -> c_next c = Some q ->
  lookup_walk (S k) p h = lookup_walk k q h.
Proof.
  intros Hc Hq. simpl. unfold bind, assert.
  assert (p <> NULL) as Hp by (intros ->; by rewrite cell_at_null in Hc).
  apply Z.eqb_neq in Hp. rewrite Hp. simpl.
  unfold GET_NEXT. by erewrite get_field_ok.
Qed.

Lemma lookup_walk_env_list k e (h : heap) vs :
  env_list h e vs -> (k <= length vs)%nat ->
  exists e', lookup_walk k e h = Ok (e', h) /\ env_list h e' (drop k vs).
Proof.
  intros Hl. revert k. induction Hl as [|p c v q vs Hc Hv Hq Hl IH]; intros k Hk.
  - destruct k; [|simpl in Hk; lia]. exists NULL. split; [done|constructor].
  - destruct k as [|k].
    + exists p. split; [done|]. simpl. by econstructor.
    + rewrite (lookup_walk_node _ _ _ _ _ Hc Hq). simpl.
      apply IH. simpl in Hk. lia.
Qed.

(** Within the environment, [lookup] returns the value at the index. *)
Lemma lookup_env_list n e (h : heap) vs x :
  env_list h e vs -> vs !! Z.to_nat n = Some x ->
  lookup n e h = Ok (x, h).
Proof.
  intros Hl Hx. unfold lookup, bind.
  destruct (lookup_walk_env_list (Z.to_nat n) e h vs Hl) as (e' & -> & Hl').
  { apply lookup_lt_Some in Hx. lia. }
  rewrite (drop_S _ _ _ Hx) in Hl'. inversion Hl'; subst.
  unfold GET_ELM. by erewrite get_field_ok.
Qed.

(** At the index equal to the length the loop ends on [NULL] without
    having asserted anything, and [GET_ELM] goes through [NULL]. *)
Lemma lookup_at_length n e (h : heap) vs :
  env_list h e vs -> Z.to_nat n = length vs ->
  lookup n e h = Stop (Undefined (BadPointer NULL)).
Proof.
  intros Hl Hn. unfold lookup, bind.
  destruct (lookup_walk_env_list (Z.to_nat n) e h vs Hl) as (e' & -> & Hl').
  { lia. }
  rewrite Hn, drop_all in Hl'. inversion Hl'; subst. done.
Qed.

(** Past the length the loop reaches [NULL] with iterations left, and the
    [assert] in its body fails. *)
Lemma lookup_past_length n e (h : heap) vs :
  env_list h e vs -> (length vs < Z.to_nat n)%nat ->
  lookup n e h = Stop (AssertFailed EnvNotNull).
Proof.
  intros Hl Hn. unfold lookup, bind.
  destruct (Z.to_nat n) as [|k]; [lia|]. clear n.
  revert k Hn. induction Hl as [|p c v q vs Hc Hv Hq Hl IH]; intros k Hk.
  - done.
  - rewrite (lookup_walk_node _ _ _ _ _ Hc Hq).
    destruct k as [|k]; [simpl in Hk; lia|]. apply IH. simpl in Hk. lia.
Qed.

Lemma lookup_head n p (h : heap) c v :
  n <= 0 -> cell_at h p = Some c -> c_elm c = Some v ->
  lookup n p h = Ok (v, h).
Proof.
  intros Hn Hc Hv. unfold lookup, bind.
  replace (Z.to_nat n) with 0%nat by lia. simpl.
  unfold GET_ELM. by erewrite get_field_ok.
Qed.

Lemma lookup_tail n p (h : heap) c q :
  0 <= n -> cell_at h p = Some c -> c_next c = Some q ->
  lookup (n + 1) p h = lookup n q h.
Proof.
  intros Hn Hc Hq. unfold lookup, bind.
  replace (Z.to_nat (n + 1)) with (S (Z.to_nat n)) by lia.
  by rewrite (lookup_walk_node _ _ _ _ _ Hc Hq).
Qed.

Lemma env_list_app (h k : heap) e vs :
  env_list h e vs -> env_list (h ++ k) e vs.
Proof.
  induction 1; econstructor; eauto using cell_at_app_l.
Qed.

Lemma get_field_app {A} (f : cell -> option A) p (h k : heap) x :
  get_field f p h = Ok (x, h) -> get_field f p (h ++ k) = Ok (x, h ++ k).
Proof.
  intros Hg. apply get_field_heap in Hg as (_ & c & Hc & Hf).
  eapply get_field_ok; eauto using cell_at_app_l.
Qed.

Lemma lookup_walk_app j e (h k : heap) e' :
  lookup_walk j e h = Ok (e', h) -> lookup_walk j e (h ++ k) = Ok (e', h ++ k).
Proof.
  revert e. induction j as [|j IH]; intros e; simpl.
  - by intros [= ->].
  - unfold bind, assert. destruct (negb (e =? NULL)); [|done]. simpl.
    destruct (GET_NEXT e h) as [[q h1]|] eqn:Hq; [|done].
    pose proof Hq as Hq'. apply get_field_heap in Hq' as [-> _].
    unfold GET_NEXT in *. rewrite (get_field_app _ _ _ k _ Hq). apply IH.
Qed.

(** Cells allocated later do not change what [lookup] finds. *)
Lemma lookup_app n e (h k : heap) x :
  lookup n e h = Ok (x, h) -> lookup n e (h ++ k) = Ok (x, h ++ k).
Proof.
  unfold lookup, bind.
  destruct (lookup_walk _ e h) as [[e' h1]|] eqn:Hw; [|done].
  pose proof Hw as Hw'. apply lookup_walk_heap in Hw' as ->.
  rewrite (lookup_walk_app _ _ _ k _ Hw). unfold GET_ELM. apply get_field_app.
Qed.

End EnvFacts.

(** ** The dispatch *)

Arguments extend : simpl never.
Arguments mkclosure : simpl never.
Arguments lookup : simpl never.
Arguments get_field : simpl never.
Arguments set_field : simpl never.
Arguments to_value : simpl never.
Arguments zget : simpl never.
Arguments zset : simpl never.
Arguments decode : simpl never.

Section StepFacts.
Context `{Header}.

Lemma find_label (l : list (Z * instr)) op i :
  NoDup (fst <$> l) -> (op, i) ∈ l ->
  List.find (fun c => fst c =? op) l = Some (op, i).
Proof.
  induction l as [|[op' i'] l IH]; simpl; intros Hnd Hin.
  - by apply elem_of_nil in Hin.
  - apply NoDup_cons in Hnd as [Hni Hnd].
    apply elem_of_cons in Hin as [[= <- <-]|Hin].
    + by rewrite Z.eqb_refl.
    + destruct (Z.eqb_spec op' op) as [->|]; [|by apply IH].
      destruct Hni. apply (list_elem_of_fmap_2 fst) in Hin. done.
Qed.

Lemma decode_label op i :
  distinct_opcodes -> (op, i) ∈ case_labels -> decode op = Some i.
Proof.
  intros Hd Hin. unfold decode. by rewrite (find_label _ _ _ Hd Hin).
Qed.

Lemma decode_default op :
  op ∉ fst <$> case_labels -> decode op = None.
Proof.
  unfold decode. intros Hni.
  destruct (List.find _ case_labels) as [[op' i]|] eqn:Hf; [|done].
  apply List.find_some in Hf as [Hin Heq]. simpl in Heq.
  apply Z.eqb_eq in Heq as ->. destruct Hni.
  apply list_elem_of_In in Hin. by apply (list_elem_of_fmap_2 fst) in Hin.
Qed.

Lemma check_bounds_ok (s : state) :
  in_bounds s -> check_bounds s = Ok (tt, s).
Proof.
  intros (Hs & Hd & Hp). unfold check_bounds, bind, get, assert.
  replace ((0 <=? sp s) && (sp s <? STACK_MAX)) with true by lia.
  replace ((0 <=? dp s) && (dp s <? DUMP_MAX)) with true by lia.
  replace ((0 <=? pc s) && (pc s <? CODE_MAX)) with true by lia.
  done.
Qed.

Lemma check_bounds_inv (s s' : state) u :
  check_bounds s = Ok (u, s') -> s' = s /\ in_bounds s.
Proof.
  unfold check_bounds, bind, get, assert, in_bounds.
  destruct ((0 <=? sp s) && (sp s <? STACK_MAX)) eqn:Hs; [|done].
  destruct ((0 <=? dp s) && (dp s <? DUMP_MAX)) eqn:Hd; [|done].
  destruct ((0 <=? pc s) && (pc s <? CODE_MAX)) eqn:Hp; [|done].
  intros [= <- <-]. split; [done|lia].
Qed.

(** The first violated [assert] is the one that fails. *)
Lemma check_bounds_fail (s : state) :
  ~ in_bounds s ->
  check_bounds s
  = Stop (AssertFailed
            (if (0 <=? sp s) && (sp s <? STACK_MAX) then
               if (0 <=? dp s) && (dp s <? DUMP_MAX) then PcInRange
               else DpInRange
             else SpInRange)).
Proof.
  intros Hn. unfold check_bounds, bind, get, assert, in_bounds in *.
  destruct ((0 <=? sp s) && (sp s <? STACK_MAX)) eqn:Hs; [|done].
  destruct ((0 <=? dp s) && (dp s <? DUMP_MAX)) eqn:Hd; [|done].
  destruct ((0 <=? pc s) && (pc s <? CODE_MAX)) eqn:Hp; [|done].
  destruct Hn. lia.
Qed.

End StepFacts.

(** ** Running one iteration symbolically *)

(** Unfold the monadic plumbing, leaving the array and heap accesses. *)
Ltac unfold_m :=
  cbv [step exec fetch push pop code_at store_dump_pc store_dump_env load_dump
       bind ret reg get leave lift_res on_heap array_read array_write
       set_pc set_sp set_dp set_env set_stack set_dump]; simpl.

Ltac unfold_m_in Hx :=
  cbv [step exec fetch push pop code_at store_dump_pc store_dump_env load_dump
       bind ret reg get leave lift_res on_heap array_read array_write
       set_pc set_sp set_dp set_env set_stack set_dump] in Hx; simpl in Hx.

(** Case analysis on every access a successful computation went through. *)
Ltac break_in Hx :=
  try discriminate Hx;
  repeat match type of Hx with
  | context [match ?x with _ => _ end] =>
      lazymatch x with
      | context [match _ with _ => _ end] => fail
      | _ => destruct x eqn:?; simpl in Hx; try discriminate Hx
      end
  end.

Ltac label := apply list_elem_of_In; simpl; tauto.

Section StepInversion.
Context `{Header}.
Variable code : list Z.

Lemma extend_inv v e (h h' : heap) p :
  extend v e h = Ok (p, h') ->
  p = Z.of_nat (length h) + 1 /\ h' = h ++ [Cell (Some v) (Some e) None None].
Proof.
  destruct (decide (Z.of_nat (length h) < HEAP_MAX)).
  - rewrite extend_ok by done. by intros [= <- <-].
  - rewrite extend_full by lia. done.
Qed.

Lemma mkclosure_inv a e (h h' : heap) p :
  mkclosure a e h = Ok (p, h') ->
  p = Z.of_nat (length h) + 1 /\ h' = h ++ [Cell None None (Some a) (Some e)].
Proof.
  destruct (decide (Z.of_nat (length h) < HEAP_MAX)).
  - rewrite mkclosure_ok by done. by intros [= <- <-].
  - rewrite mkclosure_full by lia. done.
Qed.

(** Storing into the cell allocated last but one, as [LDRF] does. *)
Lemma set_field_patch (h : heap) a k upd :
  set_field upd (Z.of_nat (length h) + 1) ((h ++ [a]) ++ k)
  = Ok (tt, (h ++ [upd a]) ++ k).
Proof.
  unfold set_field, cell_at.
  replace (Z.of_nat (length h) + 1 - 1) with (Z.of_nat (length h)) by lia.
  rewrite (zget_app_l _ _ _ a) by apply zget_snoc.
  rewrite zset_app_l, zset_snoc; [done|].
  unfold in_range. rewrite length_app. simpl. lia.
Qed.

(** An iteration writes the dump only at [dump[dp]], pops at most one
    frame, and leaves every cell that was allocated before it as it is. *)
Lemma step_frame (s s' : state) :
  step code s = Ok (tt, s') ->
  (forall i, i < dp s -> zget (dump s') i = zget (dump s) i) /\
  (exists k, cells s' = cells s ++ k) /\
  dp s - 1 <= dp s'.
Proof.
  intros Hs. destruct s as [pc0 sp0 dp0 env0 stk dmp h].
  unfold step, bind at 1 in Hs.
  destruct (fetch code _) as [[opcode s1]|] eqn:Hf; [|done].
  unfold_m_in Hf. break_in Hf. injection Hf as Ho Hs1. subst s1.
  unfold bind at 1 in Hs.
  destruct (exec code opcode _) as [[[] s2]|] eqn:He; [|done].
  apply check_bounds_inv in Hs as [-> _].
  unfold exec in He. destruct (decode opcode) as [[]|].
  all: unfold_m_in He; break_in He; simpl.
  all: repeat match goal with
       | Hx : extend _ _ _ = Ok _ |- _ => apply extend_inv in Hx as [-> ->]
       | Hx : mkclosure _ _ _ = Ok _ |- _ => apply mkclosure_inv in Hx as [-> ->]
       | Hx : lookup _ _ _ = Ok _ |- _ => apply lookup_heap in Hx as ->
       | Hx : GET_ENV _ _ = Ok _ |- _ => apply get_field_heap in Hx as [-> _]
       | Hx : GET_CODE _ _ = Ok _ |- _ => apply get_field_heap in Hx as [-> _]
       | Hx : SET_ELM _ _ _ = Ok _ |- _ =>
           unfold SET_ELM in Hx; rewrite set_field_patch in Hx;
           injection Hx as _ <-
       | Hx : zget _ _ = Some _ |- _ => apply zget_Some_range in Hx
       end.
  all: unfold in_range in *.
  all: injection He as <-; simpl.
  all: split; [intros i Hi; by rewrite ?zget_zset_ne by lia|].
  all: split; [|lia].
  all: first [ by exists []; rewrite app_nil_r
             | by eexists
             | by rewrite <- app_assoc; eexists ].
Qed.

(** While the machine runs above [dump[d]], the frames up to [d] stay
    as they are and the heap only grows. *)
Lemma run_above_frame d (s s' : state) :
  run_above code d s s' ->
  (forall i, i <= d -> zget (dump s') i = zget (dump s) i) /\
  (exists k, cells s' = cells s ++ k) /\
  d < dp s'.
Proof.
  induction 1 as [s Hd|s s1 s2 Hd Hs Hr (IHd & [k2 IHc] & IHp)].
  - split; [done|]. split; [|done]. exists []. by rewrite app_nil_r.
  - apply step_frame in Hs as (Hdmp & [k1 Hc] & _).
    split; [|split; [|done]].
    + intros i Hi. rewrite IHd by done. apply Hdmp. lia.
    + exists (k1 ++ k2). by rewrite IHc, Hc, app_assoc.
Qed.

(** An iteration that goes on to the next one has passed the three
    [assert]s. *)
Lemma step_in_bounds (s s' : state) u :
  step code s = Ok (u, s') -> in_bounds s'.
Proof.
  unfold step, bind.
  destruct (fetch code s) as [[opcode s1]|]; [|done].
  destruct (exec code opcode s1) as [[[] s2]|]; [|done].
  intros Hc. by apply check_bounds_inv in Hc as [-> ?].
Qed.

End StepInversion.

(** ** What each instruction does *)

Section StepRules.
Context `{Header}.
Variable code : list Z.
Hypothesis Hdistinct : distinct_opcodes.

Lemma step_LDC (s : state) a :
  zget code (pc s) = Some LDC ->
  zget code (pc s + 1) = Some a ->
  in_range (stack s) (sp s) ->
  step code s
  = check_bounds (State (pc s + 2) (sp s + 1) (dp s) (env s)
                    (zset (stack s) (sp s) (to_value a)) (dump s) (cells s)).
Proof.
  intros Hop Ha Hsp. destruct s as [pc0 sp0 dp0 env0 stk dmp h]; simpl in *.
  destruct (zget_in_range _ _ Hsp) as [old Hold].
  unfold_m. rewrite Hop. unfold_m.
  rewrite (decode_label LDC iLDC Hdistinct) by label.
  unfold_m. rewrite Ha. unfold_m. rewrite Hold. unfold_m.
  by replace (pc0 + 1 + 1) with (pc0 + 2) by lia.
Qed.

(** The three arithmetic instructions share the stack discipline: [a] is
    popped first, [b] second, and the result goes where [b] was. *)
Lemma step_ADD (s : state) a b :
  zget code (pc s) = Some ADD ->
  zget (stack s) (sp s - 1) = Some a ->
  zget (stack s) (sp s - 2) = Some b ->
  step code s
  = check_bounds (State (pc s + 1) (sp s - 1) (dp s) (env s)
                    (zset (stack s) (sp s - 2) (to_value (a + b)))
                    (dump s) (cells s)).
Proof.
  intros Hop Ha Hb. destruct s as [pc0 sp0 dp0 env0 stk dmp h]; simpl in *.
  unfold_m. rewrite Hop. unfold_m.
  rewrite (decode_label ADD iADD Hdistinct) by label.
  unfold_m. rewrite Ha. unfold_m.
  replace (sp0 - 1 - 1) with (sp0 - 2) by lia.
  repeat (rewrite Hb; unfold_m).
  by replace (sp0 - 2 + 1) with (sp0 - 1) by lia.
Qed.

Lemma step_SUB (s : state) a b :
  zget code (pc s) = Some SUB ->
  zget (stack s) (sp s - 1) = Some a ->
  zget (stack s) (sp s - 2) = Some b ->
  step code s
  = check_bounds (State (pc s + 1) (sp s - 1) (dp s) (env s)
                    (zset (stack s) (sp s - 2) (to_value (b - a)))
                    (dump s) (cells s)).
Proof.
  intros Hop Ha Hb. destruct s as [pc0 sp0 dp0 env0 stk dmp h]; simpl in *.
  unfold_m. rewrite Hop. unfold_m.
  rewrite (decode_label SUB iSUB Hdistinct) by label.
  unfold_m. rewrite Ha. unfold_m.
  replace (sp0 - 1 - 1) with (sp0 - 2) by lia.
  repeat (rewrite Hb; unfold_m).
  by replace (sp0 - 2 + 1) with (sp0 - 1) by lia.
Qed.

Lemma step_MUL (s : state) a b :
  zget code (pc s) = Some MUL ->
  zget (stack s) (sp s - 1) = Some a ->
  zget (stack s) (sp s - 2) = Some b ->
  step code s
  = check_bounds (State (pc s + 1) (sp s - 1) (dp s) (env s)
                    (zset (stack s) (sp s - 2) (to_value (a * b)))
                    (dump s) (cells s)).
Proof.
  intros Hop Ha Hb. destruct s as [pc0 sp0 dp0 env0 stk dmp h]; simpl in *.
  unfold_m. rewrite Hop. unfold_m.
  rewrite (decode_label MUL iMUL Hdistinct) by label.
  unfold_m. rewrite Ha. unfold_m.
  replace (sp0 - 1 - 1) with (sp0 - 2) by lia.
  repeat (rewrite Hb; unfold_m).
  by replace (sp0 - 2 + 1) with (sp0 - 1) by lia.
Qed.

Lemma step_SEL (s : state) cond t e d0 :
  zget code (pc s) = Some SEL ->
  zget (stack s) (sp s - 1) = Some cond ->
  zget code (pc s + 1) = Some t ->
  zget code (pc s + 2) = Some e ->
  zget (dump s) (dp s) = Some d0 ->
  step code s
  = check_bounds (State (if cond =? 0 then t else e) (sp s - 1) (dp s + 1)
                    (env s) (stack s)
                    (zset (dump s) (dp s) (Dump (pc s + 3) (d_env d0)))
                    (cells s)).
Proof.
  intros Hop Hc Ht He Hd. destruct s as [pc0 sp0 dp0 env0 stk dmp h]; simpl in *.
  unfold_m. rewrite Hop. unfold_m.
  rewrite (decode_label SEL iSEL Hdistinct) by label.
  unfold_m. rewrite Hc. unfold_m. rewrite Hd. unfold_m.
  replace (pc0 + 1 + 2) with (pc0 + 3) by lia.
  replace (pc0 + 1 + 1) with (pc0 + 2) by lia.
  destruct (cond =? 0); unfold_m; [rewrite Ht|rewrite He]; by unfold_m.
Qed.

Lemma step_JOIN (s : state) f :
  zget code (pc s) = Some JOIN ->
  zget (dump s) (dp s - 1) = Some f ->
  step code s
  = check_bounds (State (d_pc f) (sp s) (dp s - 1) (env s) (stack s)
                    (dump s) (cells s)).
Proof.
  intros Hop Hf. destruct s as [pc0 sp0 dp0 env0 stk dmp h]; simpl in *.
  unfold_m. rewrite Hop. unfold_m.
  rewrite (decode_label JOIN iJOIN Hdistinct) by label.
  unfold_m. rewrite Hf. by unfold_m.
Qed.

Lemma step_RTN (s : state) f :
  zget code (pc s) = Some RTN ->
  zget (dump s) (dp s - 1) = Some f ->
  step code s
  = check_bounds (State (d_pc f) (sp s) (dp s - 1) (d_env f) (stack s)
                    (dump s) (cells s)).
Proof.
  intros Hop Hf. destruct s as [pc0 sp0 dp0 env0 stk dmp h]; simpl in *.
  unfold_m. rewrite Hop. unfold_m.
  rewrite (decode_label RTN iRTN Hdistinct) by label.
  unfold_m. rewrite Hf. by unfold_m.
Qed.

Lemma zset_zset {A} (l : list A) i x y : zset (zset l i x) i y = zset l i y.
Proof. apply list_insert_insert_eq. Qed.

Lemma step_AP (s : state) arg cptr c cenv centry d0 :
  zget code (pc s) = Some AP ->
  zget (stack s) (sp s - 1) = Some arg ->
  zget (stack s) (sp s - 2) = Some cptr ->
  cell_at (cells s) cptr = Some c ->
  c_env c = Some cenv ->
  c_code c = Some centry ->
  zget (dump s) (dp s) = Some d0 ->
  Z.of_nat (length (cells s)) < HEAP_MAX ->
  step code s
  = check_bounds (State centry (sp s - 2) (dp s + 1)
                    (Z.of_nat (length (cells s)) + 1) (stack s)
                    (zset (dump s) (dp s) (Dump (pc s + 1) (env s)))
                    (cells s ++ [Cell (Some arg) (Some cenv) None None])).
Proof.
  intros Hop Ha Hc Hcell Hcenv Hcentry Hdmp Hroom.
  destruct s as [pc0 sp0 dp0 env0 stk dmp h]; simpl in *.
  unfold_m. rewrite Hop. unfold_m.
  rewrite (decode_label AP iAP Hdistinct) by label.
  unfold_m. rewrite Ha. unfold_m.
  replace (sp0 - 1 - 1) with (sp0 - 2) by lia. rewrite Hc. unfold_m.
  rewrite Hdmp. unfold_m.
  rewrite zget_zset_eq by (by eapply zget_Some_range). unfold_m.
  unfold GET_ENV, GET_CODE. rewrite (get_field_ok _ _ _ _ _ Hcell Hcenv).
  rewrite extend_ok by done. unfold_m.
  rewrite (get_field_app _ _ _ _ _ (get_field_ok _ _ _ _ _ Hcell Hcentry)).
  unfold_m. by rewrite zset_zset.
Qed.

Lemma step_LDRF (s : state) t :
  zget code (pc s) = Some LDRF ->
  zget code (pc s + 1) = Some t ->
  in_range (stack s) (sp s) ->
  Z.of_nat (length (cells s)) + 2 <= HEAP_MAX ->
  let nenv := Z.of_nat (length (cells s)) + 1 in
  let cptr := Z.of_nat (length (cells s)) + 2 in
  step code s
  = check_bounds (State (pc s + 2) (sp s + 1) (dp s) (env s)
                    (zset (stack s) (sp s) cptr) (dump s)
                    (cells s ++ [Cell (Some cptr) (Some (env s)) None None;
                                 Cell None None (Some t) (Some nenv)])).
Proof.
  intros Hop Ht Hsp Hroom nenv cptr. subst nenv cptr.
  destruct s as [pc0 sp0 dp0 env0 stk dmp h]; simpl in *.
  destruct (zget_in_range _ _ Hsp) as [old Hold].
  unfold_m. rewrite Hop. unfold_m.
  rewrite (decode_label LDRF iLDRF Hdistinct) by label.
  unfold_m. rewrite Ht. unfold_m.
  rewrite extend_ok by lia. unfold_m.
  rewrite mkclosure_ok by (rewrite length_app; simpl; lia). unfold_m.
  unfold SET_ELM. rewrite set_field_patch. unfold_m. rewrite Hold. unfold_m.
  rewrite length_app. simpl.
  replace (Z.of_nat (length h + 1) + 1) with (Z.of_nat (length h) + 2) by lia.
  replace (pc0 + 1 + 1) with (pc0 + 2) by lia.
  by rewrite <- app_assoc.
Qed.

Lemma step_HALT (s : state) :
  zget code (pc s) = Some HALT ->
  step code s
  = match zget (stack s) (sp s - 1) with
    | Some v => Stop (Returned v)
    | None => Stop (Undefined (OutOfRange StackSeg (sp s - 1)))
    end.
Proof.
  intros Hop. destruct s as [pc0 sp0 dp0 env0 stk dmp h]; simpl in *.
  unfold_m. rewrite Hop. unfold_m.
  rewrite (decode_label HALT iHALT Hdistinct) by label.
  unfold_m. by destruct (zget stk (sp0 - 1)).
Qed.

End StepRules.

Section StepDefault.
Context `{Header}.
Variable code : list Z.

Lemma step_default (s : state) opcode :
  zget code (pc s) = Some opcode ->
  decode opcode = None ->
  step code s = Stop (InvalidOpcode opcode (pc s + 1) (-1)).
Proof.
  intros Hop Hdec. destruct s as [pc0 sp0 dp0 env0 stk dmp h]; simpl in *.
  unfold_m. rewrite Hop. unfold_m. by rewrite Hdec.
Qed.

End StepDefault.

(** ** Words of [VALUE_BITS] bits *)

Section Words.
Context `{Header}.

Lemma value_modulus :
  0 < VALUE_BITS -> 2 ^ VALUE_BITS = 2 * 2 ^ (VALUE_BITS - 1).
Proof.
  intros Hw. rewrite <- Z.pow_succ_r by lia. f_equal. lia.
Qed.

Lemma to_value_range z :
  0 < VALUE_BITS ->
  - 2 ^ (VALUE_BITS - 1) <= to_value z < 2 ^ (VALUE_BITS - 1).
Proof.
  intros Hw. unfold to_value. pose proof (value_modulus Hw) as Hm.
  assert (0 < 2 ^ (VALUE_BITS - 1)) by (apply Z.pow_pos_nonneg; lia).
  pose proof (Z.mod_pos_bound (z + 2 ^ (VALUE_BITS - 1)) (2 ^ VALUE_BITS)).
  lia.
Qed.

Lemma mod_eq_of_diff x y m : (x - y) mod m = 0 -> x mod m = y mod m.
Proof.
  intros Hd. replace x with (y + (x - y)) at 1 by lia.
  by rewrite Zplus_mod, Hd, Z.add_0_r, Zmod_mod.
Qed.

Lemma to_value_congruent z :
  (to_value z - z) mod 2 ^ VALUE_BITS = 0.
Proof.
  unfold to_value.
  replace ((z + 2 ^ (VALUE_BITS - 1)) mod 2 ^ VALUE_BITS
           - 2 ^ (VALUE_BITS - 1) - z)
    with ((z + 2 ^ (VALUE_BITS - 1)) mod 2 ^ VALUE_BITS
          - (z + 2 ^ (VALUE_BITS - 1))) by lia.
  rewrite Zminus_mod, Zmod_mod, Z.sub_diag. apply Zmod_0_l.
Qed.

Lemma to_value_exact z :
  - 2 ^ (VALUE_BITS - 1) <= z < 2 ^ (VALUE_BITS - 1) -> to_value z = z.
Proof.
  intros Hz. unfold to_value.
  destruct (decide (0 < VALUE_BITS)) as [Hw|Hw].
  - pose proof (value_modulus Hw). rewrite Z.mod_small by lia. lia.
  - replace (2 ^ (VALUE_BITS - 1)) with 0 in Hz; [lia|].
    symmetry. apply Z.pow_neg_r. lia.
Qed.

Lemma to_value_eq x y :
  (x - y) mod 2 ^ VALUE_BITS = 0 -> to_value x = to_value y.
Proof.
  intros Hd. unfold to_value. f_equal. apply mod_eq_of_diff.
  by replace (x + 2 ^ (VALUE_BITS - 1) - (y + 2 ^ (VALUE_BITS - 1)))
    with (x - y) by lia.
Qed.

Lemma to_value_sub a b :
  to_value (to_value a - to_value b) = to_value (a - b).
Proof.
  apply to_value_eq.
  replace (to_value a - to_value b - (a - b))
    with ((to_value a - a) - (to_value b - b)) by lia.
  by rewrite Zminus_mod, !to_value_congruent.
Qed.

(** One past the largest value is the smallest value. *)
Lemma to_value_overflow :
  0 < VALUE_BITS ->
  to_value (2 ^ (VALUE_BITS - 1)) = - 2 ^ (VALUE_BITS - 1).
Proof.
  intros Hw. unfold to_value. pose proof (value_modulus Hw) as Hm.
  assert (0 < 2 ^ (VALUE_BITS - 1)) by (apply Z.pow_pos_nonneg; lia).
  replace (2 ^ (VALUE_BITS - 1) + 2 ^ (VALUE_BITS - 1)) with (2 ^ VALUE_BITS)
    by lia.
  rewrite Z_mod_same_full. lia.
Qed.

End Words.

(** * The claims *)

Arguments step : simpl never.
Arguments check_bounds : simpl never.

Section Claims.
Context `{Header}.

(** C5.  For every value [v], environment [env] and natural number [n]:
    while the heap has a cell left, [extend v env] returns a new
    environment [nenv] such that [lookup 0 nenv] is [v] and, for [n] less
    than the length of [env], [lookup (n+1) nenv] is what [lookup n env]
    is; [extend] changes no cell that existed before it, so [env] is the
    same environment afterwards. *)
Theorem extend_lookup (v : value_t) (env : env_t) (h : heap) :
  Z.of_nat (length h) < HEAP_MAX ->
  exists nenv h',
    extend v env h = Ok (nenv, h') /\
    lookup 0 nenv h' = Ok (v, h') /\
    (forall (n : nat) vs,
        env_list h env vs -> (n < length vs)%nat ->
        exists x,
          lookup (Z.of_nat n) env h = Ok (x, h) /\
          lookup (Z.of_nat n + 1) nenv h' = Ok (x, h') /\
          lookup (Z.of_nat n) env h' = Ok (x, h')) /\
    (forall p c, cell_at h p = Some c -> cell_at h' p = Some c) /\
    (forall vs, env_list h env vs ->
                env_list h' env vs /\ env_list h' nenv (v :: vs)).
Proof.
  intros Hroom.
  set (node := Cell (Some v) (Some env) None None).
  exists (Z.of_nat (length h) + 1), (h ++ [node]).
  assert (cell_at (h ++ [node]) (Z.of_nat (length h) + 1) = Some node)
    as Hnode.
  { unfold cell_at.
    replace (Z.of_nat (length h) + 1 - 1) with (Z.of_nat (length h)) by lia.
    apply zget_snoc. }
  split; [by apply extend_ok|].
  split; [by eapply lookup_head|].
  split; [|split].
  - intros n vs Hl Hn.
    destruct (lookup_lt_is_Some_2 vs n Hn) as [x Hx]. exists x.
    assert (lookup (Z.of_nat n) env h = Ok (x, h)) as Hlk.
    { eapply lookup_env_list; [done|]. by rewrite Nat2Z.id. }
    split; [done|].
    rewrite (lookup_tail _ _ _ node env) by (done || lia).
    split; by apply lookup_app.
  - intros p c. apply cell_at_app_l.
  - intros vs Hl. split; [by apply env_list_app|].
    econstructor; [exact Hnode|done|done|by apply env_list_app].
Qed.

(** C6.  [lookup] with an index that is not less than the length of the
    environment.  Past the length the [assert] in the loop fails; at the
    length itself the loop ends on [NULL] without an [assert], and the
    element is read through [NULL]: undefined behaviour, not a reported
    fault. *)
Theorem lookup_out_of_range (n : Z) (env : env_t) (h : heap) vs :
  env_list h env vs ->
  Z.of_nat (length vs) <= n ->
  lookup n env h
  = Stop (if decide (n = Z.of_nat (length vs))
          then Undefined (BadPointer NULL)
          else AssertFailed EnvNotNull).
Proof.
  intros Hl Hn. case_decide.
  - eapply lookup_at_length; [done|lia].
  - eapply lookup_past_length; [done|lia].
Qed.

Lemma run_continue code fuel (s s' : state) :
  step code s = Ok (tt, s') -> run code (S fuel) s = run code fuel s'.
Proof. intros Hs. simpl. by rewrite Hs. Qed.

Lemma run_exit code fuel (s : state) e :
  step code s = Stop e -> run code (S fuel) s = Some e.
Proof. intros Hs. simpl. by rewrite Hs. Qed.

(** C4, as the code has it.  The program that pushes [a], pushes [b],
    subtracts and halts returns [a - b] reduced to a word of [VALUE_BITS]
    bits, which is [a - b] itself whenever [a - b] is representable: the
    operand pushed last is the subtrahend. *)
Theorem subtract_program (a b : Z) (rest : list Z) (fuel : nat)
    (stack0 : list value_t) (dump0 : list dump_t) :
  distinct_opcodes ->
  5 < CODE_MAX -> 2 < STACK_MAX -> 0 < DUMP_MAX ->
  (2 <= length stack0)%nat ->
  (4 <= fuel)%nat ->
  let code := [LDC; a; LDC; b; SUB; HALT] ++ rest in
  interp code fuel stack0 dump0 = Some (Returned (to_value (a - b))) /\
  (- 2 ^ (VALUE_BITS - 1) <= a - b < 2 ^ (VALUE_BITS - 1) ->
   interp code fuel stack0 dump0 = Some (Returned (a - b))).
Proof.
  intros Hd Hc Hs Hdp Hlen Hfuel code.
  assert (interp code fuel stack0 dump0 = Some (Returned (to_value (a - b))))
    as Hrun.
  { destruct fuel as [|[|[|[|fuel]]]]; try lia. clear Hfuel.
    unfold interp, initial.
    erewrite run_continue; cycle 1.
    { rewrite (step_LDC code Hd _ a); [|done|done|unfold in_range; simpl; lia].
      apply check_bounds_ok. unfold in_bounds. simpl. lia. }
    simpl pc; simpl sp; simpl dp; simpl env; simpl stack; simpl dump; simpl cells.
    erewrite run_continue; cycle 1.
    { rewrite (step_LDC code Hd _ b);
        [|done|done|unfold in_range; simpl; rewrite length_zset; lia].
      apply check_bounds_ok. unfold in_bounds. simpl. lia. }
    simpl pc; simpl sp; simpl dp; simpl env; simpl stack; simpl dump; simpl cells.
    erewrite run_continue; cycle 1.
    { rewrite (step_SUB code Hd _ (to_value b) (to_value a)); [|done|..].
      - apply check_bounds_ok. unfold in_bounds. simpl. lia.
      - simpl. apply zget_zset_eq. unfold in_range. rewrite length_zset. lia.
      - simpl. rewrite zget_zset_ne by lia.
        apply zget_zset_eq. unfold in_range. lia. }
    simpl pc; simpl sp; simpl dp; simpl env; simpl stack; simpl dump; simpl cells.
    erewrite run_exit; [reflexivity|].
    rewrite (step_HALT code Hd) by done. simpl.
    rewrite zget_zset_eq by (unfold in_range; rewrite !length_zset; lia).
    by rewrite to_value_sub. }
  split; [done|]. intros Hfit. by rewrite Hrun, to_value_exact.
Qed.

(** C10.  [ADD], [SUB] and [MUL] compute on words of [VALUE_BITS] bits:
    with [a] on top of the stack and [b] below it, what they push is the
    exact sum, difference or product reduced by [to_value], which lies in
    the range of a signed word, differs from the exact result by a
    multiple of [2 ^ VALUE_BITS], and is not always the exact result: one
    more than the largest word is the smallest word. *)
Theorem arithmetic_wraps (code : list Z) (s : state) (a b : value_t) :
  distinct_opcodes ->
  0 < VALUE_BITS ->
  zget (stack s) (sp s - 1) = Some a ->
  zget (stack s) (sp s - 2) = Some b ->
  let result r :=
    check_bounds (State (pc s + 1) (sp s - 1) (dp s) (env s)
                    (zset (stack s) (sp s - 2) (to_value r))
                    (dump s) (cells s)) in
  (zget code (pc s) = Some ADD -> step code s = result (a + b)) /\
  (zget code (pc s) = Some SUB -> step code s = result (b - a)) /\
  (zget code (pc s) = Some MUL -> step code s = result (a * b)) /\
  (forall r, - 2 ^ (VALUE_BITS - 1) <= to_value r < 2 ^ (VALUE_BITS - 1) /\
             (to_value r - r) mod 2 ^ VALUE_BITS = 0) /\
  to_value ((2 ^ (VALUE_BITS - 1) - 1) + 1) = - 2 ^ (VALUE_BITS - 1).
Proof.
  intros Hd Hw Ha Hb result. subst result. simpl.
  split; [intros Hop; by apply step_ADD|].
  split; [intros Hop; by apply step_SUB|].
  split; [intros Hop; by apply step_MUL|].
  split.
  - intros r. split; [by apply to_value_range|apply to_value_congruent].
  - rewrite Z.sub_add. by apply to_value_overflow.
Qed.

(** C7, as the code has it.  When the fetched opcode equals none of the
    [case] labels, the iteration ends the process with [exit(-1)] after a
    diagnostic that carries the opcode and the program counter, which the
    fetch has already moved one past the position of the opcode; however
    much longer the loop is allowed to run, that is its outcome, and no
    value is returned. *)
Theorem invalid_opcode_exit (code : list Z) (s : state) (opcode : Z) :
  zget code (pc s) = Some opcode ->
  opcode ∉ fst <$> case_labels ->
  step code s = Stop (InvalidOpcode opcode (pc s + 1) (-1)) /\
  (forall fuel,
      run code (S fuel) s = Some (InvalidOpcode opcode (pc s + 1) (-1))) /\
  (forall fuel v, run code fuel s <> Some (Returned v)).
Proof.
  intros Hop Hno.
  assert (step code s = Stop (InvalidOpcode opcode (pc s + 1) (-1))) as Hs.
  { apply step_default; [done|by apply decode_default]. }
  split; [done|]. split.
  - intros fuel. by apply run_exit.
  - intros [|fuel] v; [done|]. by rewrite (run_exit _ _ _ _ Hs).
Qed.

(** C8.  An iteration that goes on to the next one leaves [sp], [dp] and
    [pc] within [0 .. STACK_MAX - 1], [0 .. DUMP_MAX - 1] and
    [0 .. CODE_MAX - 1].  The three [assert]s come after the body of the
    instruction: when the body ran to its end the iteration continues if
    the registers are in range and stops on the failed [assert] if not;
    and an access outside a segment made by the body comes before them,
    as when [ADD] pops from the empty stack. *)
Theorem bounds_checked_after (code : list Z) (s : state) :
  distinct_opcodes ->
  (forall s', step code s = Ok (tt, s') -> in_bounds s') /\
  (forall opcode s1 s2,
      fetch code s = Ok (opcode, s1) ->
      exec code opcode s1 = Ok (tt, s2) ->
      (in_bounds s2 -> step code s = Ok (tt, s2)) /\
      (~ in_bounds s2 -> exists a, step code s = Stop (AssertFailed a))) /\
  (zget code (pc s) = Some ADD -> sp s = 0 ->
   in_bounds s ->
   step code s = Stop (Undefined (OutOfRange StackSeg (-1)))).
Proof.
  intros Hd. split; [|split].
  - intros s'. apply step_in_bounds.
  - intros opcode s1 s2 Hf He. unfold step, bind. rewrite Hf, He. split.
    + apply check_bounds_ok.
    + intros Hn. rewrite check_bounds_fail by done. eauto.
  - intros Hop Hsp _. destruct s as [pc0 sp0 dp0 env0 stk dmp h]; simpl in *.
    subst sp0. unfold_m. rewrite Hop. unfold_m.
    rewrite (decode_label ADD iADD Hd) by label. by unfold_m.
Qed.

(** C9.  [HALT] returns the popped value at once, the [assert]s on the
    registers not being reached: whatever the registers are, the value
    under the stack pointer is returned; with [sp = 0] the read is at
    [stack[-1]], outside the segment, and no [assert] reports it. *)
Theorem halt_unchecked (code : list Z) (s : state) :
  distinct_opcodes ->
  zget code (pc s) = Some HALT ->
  (forall v, zget (stack s) (sp s - 1) = Some v ->
             step code s = Stop (Returned v)) /\
  (forall a, step code s <> Stop (AssertFailed a)) /\
  (sp s = 0 ->
   step code s = Stop (Undefined (OutOfRange StackSeg (-1)))).
Proof.
  intros Hd Hop. rewrite (step_HALT code Hd s Hop). split; [|split].
  - by intros v ->.
  - intros a. by destruct (zget (stack s) (sp s - 1)).
  - by intros ->.
Qed.

(** C1.  [AP] on a closure [cptr] with argument [arg] saves the address
    of the next instruction and the environment in [dump[dp]], and goes
    to the code of the closure with the environment of the closure
    extended by the argument.  Whatever the callee then does while that
    frame stays on the dump, the [RTN] that pops it puts [pc] back to the
    instruction after the [AP] and [env] back to the environment of the
    caller, none of whose cells has changed. *)
Theorem apply_return_roundtrip (code : list Z) (s : state)
    (arg cptr : value_t) (c : cell) (cenv : env_t) (centry : Z) :
  distinct_opcodes ->
  zget code (pc s) = Some AP ->
  zget (stack s) (sp s - 1) = Some arg ->
  zget (stack s) (sp s - 2) = Some cptr ->
  cell_at (cells s) cptr = Some c ->
  c_env c = Some cenv ->
  c_code c = Some centry ->
  in_range (dump s) (dp s) ->
  Z.of_nat (length (cells s)) < HEAP_MAX ->
  0 <= sp s - 2 < STACK_MAX ->
  dp s + 1 < DUMP_MAX ->
  0 <= centry < CODE_MAX ->
  exists s1,
    step code s = Ok (tt, s1) /\
    pc s1 = centry /\ dp s1 = dp s + 1 /\ sp s1 = sp s - 2 /\
    zget (dump s1) (dp s) = Some (Dump (pc s + 1) (env s)) /\
    lookup 0 (env s1) (cells s1) = Ok (arg, cells s1) /\
    (forall n, 0 <= n ->
               lookup (n + 1) (env s1) (cells s1) = lookup n cenv (cells s1)) /\
    forall s2,
      run_above code (dp s) s1 s2 ->
      dp s2 = dp s + 1 ->
      zget code (pc s2) = Some RTN ->
      exists s3,
        step code s2 = check_bounds s3 /\
        (in_bounds s3 -> step code s2 = Ok (tt, s3)) /\
        pc s3 = pc s + 1 /\ env s3 = env s /\ dp s3 = dp s /\
        sp s3 = sp s2 /\ stack s3 = stack s2 /\
        (forall i, i < dp s -> zget (dump s3) i = zget (dump s) i) /\
        (forall p c', cell_at (cells s) p = Some c' ->
                      cell_at (cells s3) p = Some c') /\
        (forall n x, lookup n (env s) (cells s) = Ok (x, cells s) ->
                     lookup n (env s3) (cells s3) = Ok (x, cells s3)).
Proof.
  intros Hd Hop Ha Hc Hcell Hcenv Hcentry Hdp Hroom Hsp Hdmax Hpc.
  destruct (zget_in_range _ _ Hdp) as [d0 Hd0].
  eexists. split.
  { rewrite (step_AP code Hd s arg cptr c cenv centry d0) by done.
    apply check_bounds_ok. unfold in_bounds, in_range in *. simpl. lia. }
  simpl.
  set (node := Cell (Some arg) (Some cenv) None None).
  assert (cell_at (cells s ++ [node]) (Z.of_nat (length (cells s)) + 1)
          = Some node) as Hnode.
  { unfold cell_at.
    replace (Z.of_nat (length (cells s)) + 1 - 1)
      with (Z.of_nat (length (cells s))) by lia.
    apply zget_snoc. }
  split; [done|]. split; [done|]. split; [done|].
  split; [by apply zget_zset_eq|].
  split; [by eapply lookup_head|].
  split; [intros n Hn; by eapply lookup_tail|].
  intros s2 Hrun Hdp2 Hrtn.
  apply run_above_frame in Hrun as (Hdump & [k Hcells] & _). simpl in *.
  assert (zget (dump s2) (dp s2 - 1) = Some (Dump (pc s + 1) (env s))) as Hf.
  { rewrite Hdp2. replace (dp s + 1 - 1) with (dp s) by lia.
    rewrite Hdump by lia. by apply zget_zset_eq. }
  eexists. split; [by apply (step_RTN code Hd s2 _ Hrtn Hf)|]. simpl.
  split.
  { intros Hb. rewrite (step_RTN code Hd s2 _ Hrtn Hf).
    by apply check_bounds_ok. }
  split; [done|]. split; [done|]. split; [lia|]. split; [done|].
  split; [done|].
  split.
  { intros i Hi. rewrite Hdump by lia. apply zget_zset_ne; unfold in_range in *; lia. }
  rewrite Hcells, <- app_assoc. split.
  - intros p c'. apply cell_at_app_l.
  - intros n x. apply lookup_app.
Qed.

(** C2.  [SEL] pops [cond] and goes to the first operand word when
    [cond] is 0 and to the second otherwise; either way it saves in
    [dump[dp]] the address after its two operand words and leaves the
    environment as it is.  Whatever the branch then does while that frame
    stays on the dump, the [JOIN] that pops it changes [pc], to the saved
    address, and [dp], and nothing else. *)
Theorem select_join (code : list Z) (s : state) (cond : value_t) (t e : Z) :
  distinct_opcodes ->
  zget code (pc s) = Some SEL ->
  zget (stack s) (sp s - 1) = Some cond ->
  zget code (pc s + 1) = Some t ->
  zget code (pc s + 2) = Some e ->
  in_range (dump s) (dp s) ->
  0 <= sp s - 1 < STACK_MAX ->
  dp s + 1 < DUMP_MAX ->
  0 <= t < CODE_MAX ->
  0 <= e < CODE_MAX ->
  exists s1,
    step code s = Ok (tt, s1) /\
    (cond = 0 -> pc s1 = t) /\
    (cond <> 0 -> pc s1 = e) /\
    dp s1 = dp s + 1 /\ sp s1 = sp s - 1 /\
    env s1 = env s /\ cells s1 = cells s /\
    d_pc <$> zget (dump s1) (dp s) = Some (pc s + 3) /\
    d_env <$> zget (dump s1) (dp s) = d_env <$> zget (dump s) (dp s) /\
    forall s2,
      run_above code (dp s) s1 s2 ->
      dp s2 = dp s + 1 ->
      zget code (pc s2) = Some JOIN ->
      let s3 := State (pc s + 3) (sp s2) (dp s) (env s2) (stack s2)
                  (dump s2) (cells s2) in
      step code s2 = check_bounds s3 /\
      (in_bounds s3 -> step code s2 = Ok (tt, s3)).
Proof.
  intros Hd Hop Hc Ht He Hdp Hsp Hdmax Htr Her.
  destruct (zget_in_range _ _ Hdp) as [d0 Hd0].
  eexists. split.
  { rewrite (step_SEL code Hd s cond t e d0) by done.
    apply check_bounds_ok. unfold in_bounds, in_range in *. simpl.
    destruct (cond =? 0); lia. }
  simpl.
  split; [by intros ->|].
  split; [intros Hne; apply Z.eqb_neq in Hne; by rewrite Hne|].
  split; [done|]. split; [done|]. split; [done|]. split; [done|].
  rewrite zget_zset_eq, Hd0 by done. simpl.
  split; [done|]. split; [done|].
  intros s2 Hrun Hdp2 Hjoin.
  set (s3 := State (pc s + 3) (sp s2) (dp s) (env s2) (stack s2)
               (dump s2) (cells s2)).
  apply run_above_frame in Hrun as (Hdump & _ & _). simpl in *.
  assert (zget (dump s2) (dp s2 - 1) = Some (Dump (pc s + 3) (d_env d0)))
    as Hf.
  { rewrite Hdp2. replace (dp s + 1 - 1) with (dp s) by lia.
    rewrite Hdump by lia. by apply zget_zset_eq. }
  assert (step code s2 = check_bounds s3) as Hs3.
  { rewrite (step_JOIN code Hd s2 _ Hjoin Hf). simpl. subst s3.
    by rewrite Hdp2, Z.add_simpl_r. }
  split; [done|]. intros Hb. rewrite Hs3. by apply check_bounds_ok.
Qed.

(** C3.  [LDRF] pushes a closure whose captured environment has the
    closure itself at index 0, in front of the environment that was
    current: the node added with a [NULL] element is patched to point to
    the closure.  The closure and its environment are ordinary cells, and
    stay as they are when more cells are allocated. *)
Theorem recursive_closure_self (code : list Z) (s : state) (t : Z) :
  distinct_opcodes ->
  zget code (pc s) = Some LDRF ->
  zget code (pc s + 1) = Some t ->
  in_range (stack s) (sp s) ->
  Z.of_nat (length (cells s)) + 2 <= HEAP_MAX ->
  sp s + 1 < STACK_MAX ->
  0 <= dp s < DUMP_MAX ->
  0 <= pc s + 2 < CODE_MAX ->
  exists s1 cptr cenv,
    step code s = Ok (tt, s1) /\
    sp s1 = sp s + 1 /\
    zget (stack s1) (sp s1 - 1) = Some cptr /\
    GET_CODE cptr (cells s1) = Ok (t, cells s1) /\
    GET_ENV cptr (cells s1) = Ok (cenv, cells s1) /\
    lookup 0 cenv (cells s1) = Ok (cptr, cells s1) /\
    (forall n, 0 <= n ->
               lookup (n + 1) cenv (cells s1) = lookup n (env s) (cells s1)) /\
    (forall k, GET_ENV cptr (cells s1 ++ k) = Ok (cenv, cells s1 ++ k) /\
               lookup 0 cenv (cells s1 ++ k) = Ok (cptr, cells s1 ++ k)).
Proof.
  intros Hd Hop Ht Hsp Hroom Hsmax Hdp Hpc.
  set (nenv := Z.of_nat (length (cells s)) + 1).
  set (cptr := Z.of_nat (length (cells s)) + 2).
  set (node := Cell (Some cptr) (Some (env s)) None None).
  set (clos := Cell None None (Some t) (Some nenv)).
  exists (State (pc s + 2) (sp s + 1) (dp s) (env s)
            (zset (stack s) (sp s) cptr) (dump s)
            (cells s ++ [node; clos])), cptr, nenv.
  split.
  { rewrite (step_LDRF code Hd s t) by done.
    apply check_bounds_ok. unfold in_bounds, in_range in *. simpl. lia. }
  simpl.
  assert (cell_at (cells s ++ [node; clos]) nenv = Some node) as Hnode.
  { unfold cell_at, nenv.
    replace (Z.of_nat (length (cells s)) + 1 - 1)
      with (Z.of_nat (length (cells s))) by lia.
    change [node; clos] with ([node] ++ [clos]). rewrite app_assoc.
    apply zget_app_l, zget_snoc. }
  assert (cell_at (cells s ++ [node; clos]) cptr = Some clos) as Hclos.
  { unfold cell_at, cptr.
    change [node; clos] with ([node] ++ [clos]). rewrite app_assoc.
    replace (Z.of_nat (length (cells s)) + 2 - 1)
      with (Z.of_nat (length (cells s ++ [node])))
      by (rewrite length_app; simpl; lia).
    apply zget_snoc. }
  assert (GET_ENV cptr (cells s ++ [node; clos])
          = Ok (nenv, cells s ++ [node; clos])) as Henv
    by (by eapply get_field_ok).
  assert (lookup 0 nenv (cells s ++ [node; clos])
          = Ok (cptr, cells s ++ [node; clos])) as Hself
    by (by eapply lookup_head).
  split; [done|].
  split; [rewrite Z.add_simpl_r; by apply zget_zset_eq|].
  split; [by eapply get_field_ok|].
  split; [done|]. split; [done|].
  split; [intros n Hn; by eapply lookup_tail|].
  intros k. split; [by apply get_field_app|by apply lookup_app].
Qed.

End Claims.

(** * The machine on the sample header *)

Lemma sample_distinct : distinct_opcodes (H := sample_header).
Proof.
  unfold distinct_opcodes. simpl.
  repeat (apply NoDup_cons; split;
          [rewrite ?elem_of_cons, elem_of_nil; lia|]).
  apply NoDup_nil_2.
Defined.

(** The end-to-end runs the specification lists. *)
Example run_add :
  interp (H := sample_header) (sample_code [0; 2; 0; 3; 2; 11]) 4
    sample_stack sample_dump = Some (Returned 5).
Proof. vm_compute. reflexivity. Qed.

Example run_sub :
  interp (H := sample_header) (sample_code [0; 10; 0; 4; 3; 11]) 4
    sample_stack sample_dump = Some (Returned 6).
Proof. vm_compute. reflexivity. Qed.

Example run_call :
  interp (H := sample_header) (sample_code call_program) 6
    sample_stack sample_dump = Some (Returned 7).
Proof. vm_compute. reflexivity. Qed.

(** [LDRF 6; LDC 5; AP; HALT] with, at 6, the body that sums the numbers
    up to its argument: inside the body the argument is at index 0 and
    the closure itself at index 1. *)
Example run_recursive :
  interp (H := sample_header)
    (sample_code [7; 6; 0; 5; 8; 11;
                  1; 0; 5; 12; 15; 9;
                  0; 0; 10;
                  1; 1; 1; 0; 0; 1; 3; 8; 1; 0; 2; 10])
    100 sample_stack sample_dump = Some (Returned 15).
Proof. vm_compute. reflexivity. Qed.

Lemma extend_lookup_witness :
  let h := [Cell (Some 5) (Some NULL) None None] in
  exists nenv h',
    extend (H := sample_header) 7 1 h = Ok (nenv, h') /\
    lookup 0 nenv h' = Ok (7, h') /\
    lookup 1 nenv h' = Ok (5, h') /\
    cell_at h' 1 = cell_at h 1.
Proof.
  intros h.
  destruct (extend_lookup (H := sample_header) 7 1 h)
    as (nenv & h' & He & H0 & Hn & Hcell & _).
  { vm_compute. reflexivity. }
  exists nenv, h'. split; [exact He|]. split; [exact H0|].
  destruct (Hn 0%nat [5]) as (x & Hx & Hx' & _).
  { econstructor; [reflexivity..|constructor]. }
  { simpl. lia. }
  vm_compute in Hx. injection Hx as <-.
  split; [exact Hx'|]. apply (Hcell 1). reflexivity.
Defined.

Lemma lookup_out_of_range_witness :
  lookup 0 NULL [] = Stop (Undefined (BadPointer NULL)).
Proof.
  apply (lookup_out_of_range 0 NULL [] []).
  - constructor.
  - simpl. lia.
Defined.

Lemma subtract_program_witness :
  interp (H := sample_header) ([0; 10; 0; 4; 3; 11] ++ replicate 58 0) 4
    sample_stack sample_dump = Some (Returned 6).
Proof.
  destruct (subtract_program (H := sample_header) 10 4 (replicate 58 0) 4
              sample_stack sample_dump) as [_ Hexact].
  - exact sample_distinct.
  - simpl. lia.
  - simpl. lia.
  - simpl. lia.
  - simpl. lia.
  - lia.
  - apply Hexact. simpl. lia.
Defined.

(** With [value_t] as wide as [int], the smallest [int] minus one is not
    what the program returns. *)
Lemma subtract_program_overflow :
  interp (H := sample_header)
    (sample_code [0; -2147483648; 0; 1; 3; 11]) 4 sample_stack sample_dump
  = Some (Returned 2147483647)
  /\ 2147483647 <> -2147483648 - 1.
Proof. split; [vm_compute; reflexivity|lia]. Qed.

Lemma arithmetic_wraps_witness :
  step (H := sample_header) (sample_code [2])
    (State 0 2 0 NULL (2147483647 :: 1 :: replicate 14 0) sample_dump [])
  = Ok (tt, State 1 1 0 NULL (-2147483648 :: 1 :: replicate 14 0)
              sample_dump []).
Proof.
  destruct (arithmetic_wraps (H := sample_header) (sample_code [2])
              (State 0 2 0 NULL (2147483647 :: 1 :: replicate 14 0)
                 sample_dump [])
              1 2147483647) as (Hadd & _).
  - exact sample_distinct.
  - simpl. lia.
  - reflexivity.
  - reflexivity.
  - rewrite Hadd by reflexivity. vm_compute. reflexivity.
Defined.

Lemma invalid_opcode_exit_witness :
  run (H := sample_header) (sample_code [99]) 5
    (initial sample_stack sample_dump [])
  = Some (InvalidOpcode 99 1 (-1)).
Proof.
  destruct (invalid_opcode_exit (H := sample_header) (sample_code [99])
              (initial sample_stack sample_dump []) 99) as (_ & Hrun & _).
  - reflexivity.
  - simpl. intros Hin.
    repeat (apply elem_of_cons in Hin as [Hin|Hin]; [discriminate Hin|]).
    by apply elem_of_nil in Hin.
  - exact (Hrun 4%nat).
Defined.

(** The invalid opcode 99 is the word at position 0 of the code; the
    diagnostic names program counter 1. *)
Lemma invalid_opcode_position :
  let code := sample_code [99] in
  let s := initial sample_stack sample_dump [] in
  zget code (pc s) = Some 99 /\
  step (H := sample_header) code s = Stop (InvalidOpcode 99 1 (-1)) /\
  1 <> pc s.
Proof. split; [reflexivity|]. split; [vm_compute; reflexivity|done]. Qed.

Lemma bounds_checked_after_witness :
  in_bounds (H := sample_header)
    (State 2 1 0 NULL (10 :: replicate 15 0) sample_dump []).
Proof.
  destruct (bounds_checked_after (H := sample_header)
              (sample_code [0; 10; 0; 4; 3; 11])
              (initial sample_stack sample_dump []) sample_distinct)
    as (Hnext & _ & _).
  apply Hnext. vm_compute. reflexivity.
Defined.

Lemma halt_unchecked_witness :
  step (H := sample_header) (sample_code [11])
    (initial sample_stack sample_dump [])
  = Stop (Undefined (OutOfRange StackSeg (-1))).
Proof.
  destruct (halt_unchecked (H := sample_header) (sample_code [11])
              (initial sample_stack sample_dump [])) as (_ & _ & Hempty).
  - exact sample_distinct.
  - reflexivity.
  - apply Hempty. reflexivity.
Defined.

(** [HALT] in the last word of the code segment: the returned value is
    not held back by [pc] having reached [CODE_MAX]. *)
Example halt_at_end :
  let s := State 63 1 0 NULL (7 :: replicate 15 0) sample_dump [] in
  step (H := sample_header) (replicate 63 0 ++ [11]) s = Stop (Returned 7)
  /\ pc s + 1 = CODE_MAX (Header := sample_header).
Proof. split; [vm_compute; reflexivity|reflexivity]. Qed.

(** The call of [call_program]: [AP] enters the body at 6, the body
    pushes its argument, and [RTN] comes back to 5 with the environment
    of the caller, which is not the one the body ran in. *)
Lemma apply_return_roundtrip_witness :
  let code := sample_code call_program in
  exists s1 s2 s3,
    step (H := sample_header) code call_state = Ok (tt, s1) /\
    pc s1 = 6 /\
    step (H := sample_header) code s1 = Ok (tt, s2) /\
    step (H := sample_header) code s2 = Ok (tt, s3) /\
    pc s3 = pc call_state + 1 /\
    env s3 = env call_state /\
    env s2 <> env s3.
Proof.
  intros code.
  destruct (apply_return_roundtrip (H := sample_header) code call_state
              7 1 (Cell None None (Some 6) (Some NULL)) NULL 6)
    as (s1 & Hs1 & Hpc1 & _ & _ & _ & _ & _ & Hret).
  - exact sample_distinct.
  - reflexivity.
  - reflexivity.
  - reflexivity.
  - reflexivity.
  - reflexivity.
  - reflexivity.
  - unfold in_range. simpl. lia.
  - simpl. lia.
  - simpl. lia.
  - simpl. lia.
  - simpl. lia.
  - set (s1c := State 6 0 1 2 (1 :: 7 :: replicate 14 0)
                   (Dump 5 0 :: replicate 15 (Dump 0 0))
                   [Cell None None (Some 6) (Some 0);
                    Cell (Some 7) (Some 0) None None]).
    set (s2c := State 8 1 1 2 (7 :: 7 :: replicate 14 0)
                   (Dump 5 0 :: replicate 15 (Dump 0 0))
                   [Cell None None (Some 6) (Some 0);
                    Cell (Some 7) (Some 0) None None]).
    assert (s1 = s1c) as ->.
    { pose proof Hs1 as Hs1'. vm_compute in Hs1'. injection Hs1' as <-.
      reflexivity. }
    assert (step (H := sample_header) code s1c = Ok (tt, s2c)) as Hs2
      by (vm_compute; reflexivity).
    destruct (Hret s2c) as (s3 & _ & Hs3 & Hpc3 & Henv3 & Hdp3 & Hsp3 & _).
    + apply (run_above_step _ _ s1c s2c s2c); [simpl; lia|exact Hs2|].
      apply run_above_here. simpl. lia.
    + reflexivity.
    + reflexivity.
    + exists s1c, s2c, s3. split; [exact Hs1|]. split; [reflexivity|].
      split; [exact Hs2|].
      split.
      { apply Hs3. unfold in_bounds. rewrite Hpc3, Hdp3, Hsp3. simpl. lia. }
      split; [exact Hpc3|]. split; [exact Henv3|].
      rewrite Henv3. intros Heq. vm_compute in Heq. discriminate Heq.
Defined.

(** The conditional of [branch_program] on condition 0: [SEL] goes to
    the first address, 6; the branch pushes 1; [JOIN] comes back to 5,
    the word after the two operands of the [SEL], in the same
    environment. *)
Lemma select_join_witness :
  let code := sample_code branch_program in
  exists s1 s2 s3,
    step (H := sample_header) code branch_state = Ok (tt, s1) /\
    pc s1 = 6 /\
    step (H := sample_header) code s1 = Ok (tt, s2) /\
    step (H := sample_header) code s2 = Ok (tt, s3) /\
    pc s3 = pc branch_state + 3 /\
    env s3 = env branch_state.
Proof.
  intros code.
  destruct (select_join (H := sample_header) code branch_state 0 6 9)
    as (s1 & Hs1 & Hthen & _ & _ & _ & _ & _ & _ & _ & Hjoin).
  - exact sample_distinct.
  - reflexivity.
  - reflexivity.
  - reflexivity.
  - reflexivity.
  - unfold in_range. simpl. lia.
  - simpl. lia.
  - simpl. lia.
  - simpl. lia.
  - simpl. lia.
  - set (s1c := State 6 0 1 NULL sample_stack
                   (Dump 5 0 :: replicate 15 (Dump 0 0)) []).
    set (s2c := State 8 1 1 NULL (1 :: replicate 15 0)
                   (Dump 5 0 :: replicate 15 (Dump 0 0)) []).
    assert (s1 = s1c) as ->.
    { pose proof Hs1 as Hs1'. vm_compute in Hs1'. injection Hs1' as <-.
      reflexivity. }
    assert (step (H := sample_header) code s1c = Ok (tt, s2c)) as Hs2
      by (vm_compute; reflexivity).
    destruct (Hjoin s2c) as (_ & Hs3).
    + apply (run_above_step _ _ s1c s2c s2c); [simpl; lia|exact Hs2|].
      apply run_above_here. simpl. lia.
    + reflexivity.
    + reflexivity.
    + exists s1c, s2c. eexists. split; [exact Hs1|]. split; [reflexivity|].
      split; [exact Hs2|].
      split; [apply Hs3; unfold in_bounds; simpl; lia|].
      split; reflexivity.
Defined.

(** [LDRF 6] from the initial state: the closure is cell 2, its
    environment is cell 1, and the element of cell 1 is the closure. *)
Lemma recursive_closure_self_witness :
  exists s1 cptr cenv,
    step (H := sample_header) (sample_code [7; 6])
      (initial sample_stack sample_dump []) = Ok (tt, s1) /\
    zget (stack s1) (sp s1 - 1) = Some cptr /\
    GET_ENV cptr (cells s1) = Ok (cenv, cells s1) /\
    lookup 0 cenv (cells s1) = Ok (cptr, cells s1) /\
    cptr = 2 /\ cenv = 1.
Proof.
  destruct (recursive_closure_self (H := sample_header) (sample_code [7; 6])
              (initial sample_stack sample_dump []) 6)
    as (s1 & cptr & cenv & Hs1 & _ & Htop & _ & Henv & Hself & _).
  - exact sample_distinct.
  - reflexivity.
  - reflexivity.
  - unfold in_range. simpl. lia.
  - simpl. lia.
  - simpl. lia.
  - simpl. lia.
  - simpl. lia.
  - exists s1, cptr, cenv.
    split; [exact Hs1|]. split; [exact Htop|]. split; [exact Henv|].
    split; [exact Hself|].
    pose proof Hs1 as Hs1'. vm_compute in Hs1'. injection Hs1' as <-.
    vm_compute in Htop. injection Htop as <-.
    vm_compute in Henv. injection Henv as <-. split; reflexivity.
Defined.

(** * More of the interpreter *)

(** ** An iteration, read backwards *)

Section StepSpec.
Context `{Header}.
Variable code : list Z.

Lemma set_field_inv upd p (h h' : heap) u :
  set_field upd p h = Ok (u, h') ->
  exists c, cell_at h p = Some c /\ h' = zset h (p - 1) (upd c).
Proof.
  unfold set_field. destruct (cell_at h p) as [c|]; [|done].
  intros [= _ <-]. eauto.
Qed.

(** Every iteration that goes on did what [step_spec] says of its
    instruction, and passed the [assert]s. *)
Lemma step_inv (s s' : state) :
  step code s = Ok (tt, s') ->
  exists i, instr_at code s = Some i /\ step_spec code i s s' /\ in_bounds s'.
Proof.
  intros Hs. destruct s as [pc0 sp0 dp0 env0 stk dmp h].
  unfold step, bind at 1 in Hs.
  destruct (fetch code _) as [[opcode s1]|] eqn:Hf; [|done].
  unfold_m_in Hf. break_in Hf. injection Hf as Ho Hs1. subst s1 opcode.
  unfold bind at 1 in Hs.
  destruct (exec code _ _) as [[[] s2]|] eqn:He; [|done].
  apply check_bounds_inv in Hs as [-> Hb].
  unfold instr_at, step_spec. simpl.
  match goal with Hx : zget code pc0 = Some _ |- _ => rewrite Hx end.
  unfold exec in He. destruct (decode _) as [i|]; [|by unfold_m_in He].
  exists i. split; [done|]. split; [|done]. clear Hb.
  destruct i; unfold_m_in He; break_in He.
  all: repeat match goal with
       | Hx : extend _ _ _ = Ok _ |- _ => apply extend_inv in Hx as [-> ->]
       | Hx : mkclosure _ _ _ = Ok _ |- _ => apply mkclosure_inv in Hx as [-> ->]
       | Hx : lookup _ _ _ = Ok (_, ?h') |- _ =>
           assert (h' = h) as -> by (by eapply lookup_heap)
       | Hx : GET_ENV _ _ = Ok _ |- _ =>
           apply get_field_heap in Hx as (-> & ? & ? & ?)
       | Hx : GET_CODE _ _ = Ok _ |- _ =>
           apply get_field_heap in Hx as (-> & ? & ? & ?)
       | Hx : SET_ELM _ _ _ = Ok _ |- _ =>
           unfold SET_ELM in Hx; rewrite set_field_patch in Hx;
           injection Hx as _ <-
       end.
  all: injection He as <-.
  all: replace (pc0 + 1 + 1) with (pc0 + 2) in * by lia.
  all: replace (pc0 + 1 + 2) with (pc0 + 3) in * by lia.
  all: replace (sp0 - 1 - 1) with (sp0 - 2) in * by lia.
  all: replace (sp0 - 2 + 1) with (sp0 - 1) in * by lia.
  all: rewrite ?zset_zset.
  all: repeat match goal with
       | Hx : zget (zset _ ?j _) ?j = Some _ |- _ =>
           rewrite zget_zset_eq in Hx
             by (eapply zget_Some_range; eassumption)
       | Hc : cell_at ?h1 ?p = Some _,
         Hx : cell_at (?h1 ++ _) ?p = Some _ |- _ =>
           rewrite (cell_at_app_l _ _ _ _ Hc) in Hx
       end.
  all: simplify_eq; simpl.
  all: rewrite <- ?app_assoc, ?length_app; simpl.
  all: replace (Z.of_nat (length h + 1) + 1)
         with (Z.of_nat (length h) + 1 + 1) by lia.
  all: repeat match goal with
       | |- exists _, _ => eexists
       | |- in_range _ _ => eapply zget_Some_range; eassumption
       | |- _ /\ _ => split
       | Hb : (?c =? 0) = _ |- context [?c =? 0] => rewrite Hb
       | |- _ = _ => first [reflexivity | eassumption]
       end.
Qed.

End StepSpec.

(** ** Closures, environments and the stack *)

Section MoreClaims.
Context `{Header}.

Lemma lookup_env_list_inv (n : Z) (env : env_t) (h h' : heap) vs x :
  env_list h env vs ->
  lookup n env h = Ok (x, h') ->
  h' = h /\ vs !! Z.to_nat n = Some x.
Proof.
  intros Hl Hlk. pose proof (lookup_heap _ _ _ _ _ Hlk) as ->.
  split; [done|].
  destruct (vs !! Z.to_nat n) as [y|] eqn:Hy.
  - rewrite (lookup_env_list _ _ _ _ _ Hl Hy) in Hlk. by injection Hlk as ->.
  - apply lookup_ge_None in Hy.
    destruct (decide (Z.to_nat n = length vs)) as [Heq|Hne].
    + by rewrite (lookup_at_length _ _ _ _ Hl Heq) in Hlk.
    + rewrite (lookup_past_length _ _ _ _ Hl) in Hlk by lia. done.
Qed.

(** X1.  [mkclosure] while the heap has a cell left: the pointer returned is
    not [NULL] and designated no cell before; through it [GET_CODE] and
    [GET_ENV] give back the two arguments; and every cell there was is
    still what it was. *)
Theorem mkclosure_fields (a : Z) (e : env_t) (h : heap) :
  Z.of_nat (length h) < HEAP_MAX ->
  exists ptr h',
    mkclosure a e h = Ok (ptr, h') /\
    ptr <> NULL /\
    cell_at h ptr = None /\
    GET_CODE ptr h' = Ok (a, h') /\
    GET_ENV ptr h' = Ok (e, h') /\
    (forall p c, cell_at h p = Some c -> cell_at h' p = Some c).
Proof.
  intros Hroom.
  set (clos := Cell None None (Some a) (Some e)).
  exists (Z.of_nat (length h) + 1), (h ++ [clos]).
  assert (cell_at (h ++ [clos]) (Z.of_nat (length h) + 1) = Some clos)
    as Hclos.
  { unfold cell_at.
    replace (Z.of_nat (length h) + 1 - 1) with (Z.of_nat (length h)) by lia.
    apply zget_snoc. }
  split; [by apply mkclosure_ok|].
  split; [unfold NULL; lia|].
  split.
  { unfold cell_at, zget. rewrite decide_True by lia.
    apply lookup_ge_None. lia. }
  split; [by eapply get_field_ok|].
  split; [by eapply get_field_ok|].
  intros p c. apply cell_at_app_l.
Qed.

(** X2.  On an environment that is a list of [vs], [lookup n] succeeds exactly
    when position [n] exists in [vs] (position 0 for an [n] that is not
    positive, the loop not being entered), with the value at that
    position, and it leaves the heap as it is. *)
Theorem lookup_nth (n : Z) (env : env_t) (h h' : heap) vs (x : value_t) :
  env_list h env vs ->
  lookup n env h = Ok (x, h') <-> h' = h /\ vs !! Z.to_nat n = Some x.
Proof.
  intros Hl. split.
  - by apply lookup_env_list_inv.
  - intros [-> Hx]. by eapply lookup_env_list.
Qed.

(** X3.  [LD]: an iteration on [LD] that goes on has pushed the value at the
    position its operand names in the environment, and changed neither
    the environment nor the heap. *)
Theorem load_variable (code : list Z) (s s' : state) vs :
  instr_at code s = Some iLD ->
  step code s = Ok (tt, s') ->
  env_list (cells s) (env s) vs ->
  exists t x,
    zget code (pc s + 1) = Some t /\
    vs !! Z.to_nat t = Some x /\
    zget (stack s') (sp s) = Some x /\
    sp s' = sp s + 1 /\ pc s' = pc s + 2 /\
    env s' = env s /\ cells s' = cells s.
Proof.
  intros Hi Hs Hl.
  destruct (step_inv code s s' Hs) as (i & Hi' & Hspec & _).
  rewrite Hi in Hi'. injection Hi' as <-.
  destruct Hspec as (t & v & Ht & Hlk & Hsp & ->). simpl.
  apply (lookup_env_list_inv _ _ _ _ _ _ Hl) in Hlk as [_ Hv].
  exists t, v. split; [done|]. split; [done|].
  split; [by apply zget_zset_eq|]. done.
Qed.

(** X4.  The stack pointer after an iteration that goes on is the one before,
    less the values the instruction pops, plus the one it may push. *)
Theorem step_stack_effect (code : list Z) (s s' : state) (i : instr) :
  instr_at code s = Some i ->
  step code s = Ok (tt, s') ->
  sp s' = sp s - pops i + pushes i.
Proof.
  intros Hi Hs.
  destruct (step_inv code s s' Hs) as (i' & Hi' & Hspec & _).
  rewrite Hi in Hi'. injection Hi' as <-.
  destruct i; simpl in Hspec; [..|done].
  all: repeat match goal with
       | Hx : exists _, _ |- _ => destruct Hx as [? Hx]
       | Hx : _ /\ _ |- _ => destruct Hx as [? Hx]
       end; subst s'; simpl; lia.
Qed.

(** X5.  An iteration leaves the stack below the values it pops as it is. *)
Theorem step_stack_below (code : list Z) (s s' : state) (i : instr) :
  instr_at code s = Some i ->
  step code s = Ok (tt, s') ->
  forall j, j < sp s - pops i -> zget (stack s') j = zget (stack s) j.
Proof.
  intros Hi Hs j Hj.
  destruct (step_inv code s s' Hs) as (i' & Hi' & Hspec & _).
  rewrite Hi in Hi'. injection Hi' as <-.
  destruct i; simpl in Hspec, Hj; [..|done].
  all: repeat match goal with
       | Hx : exists _, _ |- _ => destruct Hx as [? Hx]
       | Hx : _ /\ _ |- _ => destruct Hx as [? Hx]
       | Hx : zget _ _ = Some _ |- _ => apply zget_Some_range in Hx
       end; subst s'; simpl; unfold in_range in *.
  all: first [done | apply zget_zset_ne; lia].
Qed.

(** X6.  The instructions other than [AP], [RTN], [SEL] and [JOIN] go on to
    the instruction that follows them, past their operand if they have
    one, and leave the environment, the dump pointer and the dump as
    they are. *)
Theorem straight_line_step (code : list Z) (s s' : state) (i : instr) :
  instr_at code s = Some i ->
  step code s = Ok (tt, s') ->
  i <> iAP -> i <> iRTN -> i <> iSEL -> i <> iJOIN ->
  pc s' = pc s + 1 + (match i with
                      | iLDC | iLD | iLDF | iLDRF => 1
                      | _ => 0
                      end) /\
  env s' = env s /\ dp s' = dp s /\ dump s' = dump s.
Proof.
  intros Hi Hs ? ? ? ?.
  destruct (step_inv code s s' Hs) as (i' & Hi' & Hspec & _).
  rewrite Hi in Hi'. injection Hi' as <-.
  destruct i; simpl in Hspec; try done.
  all: repeat match goal with
       | Hx : exists _, _ |- _ => destruct Hx as [? Hx]
       | Hx : _ /\ _ |- _ => destruct Hx as [? Hx]
       end; subst s'; simpl.
  all: split; [lia|done].
Qed.

End MoreClaims.

(** ** Accesses outside the segments *)

Section OutOfRange.
Context `{Header}.










End OutOfRange.

Section Underflow.
Context `{Header}.



End Underflow.

(** ** The heap over an execution *)

Section Persistence.
Context `{Header}.
Variable code : list Z.

Lemma reaches_cells (s s' : state) :
  reaches code s s' -> exists k, cells s' = cells s ++ k.
Proof.
  induction 1 as [s|s s1 s2 Hs _ [k2 IH]].
  - exists []. by rewrite app_nil_r.
  - apply step_frame in Hs as (_ & [k1 Hk] & _).
    exists (k1 ++ k2). by rewrite IH, Hk, app_assoc.
Qed.

Lemma reaches_heap (s s' : state) :
  reaches code s s' ->
  (forall p c, cell_at (cells s) p = Some c -> cell_at (cells s') p = Some c)
  /\ (forall e vs, env_list (cells s) e vs -> env_list (cells s') e vs)
  /\ (forall n e x, lookup n e (cells s) = Ok (x, cells s) ->
                    lookup n e (cells s') = Ok (x, cells s')).
Proof.
  intros Hr. destruct (reaches_cells s s' Hr) as [k ->].
  split; [|split].
  - intros p c. apply cell_at_app_l.
  - intros e vs. apply env_list_app.
  - intros n e x. apply lookup_app.
Qed.

(** X11.  However the execution goes on, a cell keeps what it holds, an
    environment stays the list of values it is, and a [lookup] that
    succeeds succeeds with the same value ever after: the iterations
    allocate cells, and store only into cells they have just allocated. *)
Theorem environments_persist (s s' : state) :
  reaches code s s' ->
  (forall p c, cell_at (cells s) p = Some c -> cell_at (cells s') p = Some c)
  /\ (forall e vs, env_list (cells s) e vs -> env_list (cells s') e vs)
  /\ (forall n e x, lookup n e (cells s) = Ok (x, cells s) ->
                    lookup n e (cells s') = Ok (x, cells s')).
Proof.
  intros Hr. destruct (reaches_cells s s' Hr) as [k ->].
  split; [|split].
  - intros p c. apply cell_at_app_l.
  - intros e vs. apply env_list_app.
  - intros n e x. apply lookup_app.
Qed.

End Persistence.

(** ** Calls and branches, nested *)

Section Nesting.
Context `{Header}.
Variable code : list Z.

Lemma step_instr (s s' : state) (i : instr) :
  instr_at code s = Some i ->
  step code s = Ok (tt, s') ->
  step_spec code i s s'.
Proof.
  intros Hi Hs. destruct (step_inv code s s' Hs) as (i' & Hi' & Hspec & _).
  rewrite Hi in Hi'. by injection Hi' as <-.
Qed.

(** X12.  A balanced execution ends in the environment and at the dump depth
    it started with, the frames below that depth being what they were:
    every call in it has come back to where it was made from, and every
    branch has joined. *)
Theorem balanced_restores (s s' : state) :
  balanced code s s' ->
  env s' = env s /\ dp s' = dp s /\
  (forall j, j < dp s -> zget (dump s') j = zget (dump s) j).
Proof.
  induction 1 as
    [ s
    | s s1 s2 i Hi Hap Hrtn Hsel Hjoin Hs _ (IHe & IHd & IHf)
    | s s1 s2 s3 s4 Hi Hs _ (IHe1 & IHd1 & IHf1) Hi2 Hs2 _ (IHe & IHd & IHf)
    | s s1 s2 s3 s4 Hi Hs _ (IHe1 & IHd1 & IHf1) Hi2 Hs2 _ (IHe & IHd & IHf) ].
  - done.
  - pose proof (step_instr _ _ _ Hi Hs) as Hspec.
    assert (env s1 = env s /\ dp s1 = dp s /\ dump s1 = dump s)
      as (He & Hd & Hdm).
    { destruct i; simpl in Hspec; try done.
      all: repeat match goal with
           | Hx : exists _, _ |- _ => destruct Hx as [? Hx]
           | Hx : _ /\ _ |- _ => destruct Hx as [? Hx]
           end; by subst s1. }
    rewrite IHe, IHd, He, Hd. split; [done|]. split; [done|].
    intros j Hj. rewrite IHf by lia. by rewrite Hdm.
  - destruct (step_instr _ _ _ Hi Hs)
      as (arg & cptr & c & cenv & centry & _ & _ & _ & _ & _ & Hdp & Hs1).
    destruct (step_instr _ _ _ Hi2 Hs2) as (f & Hf & Hs3).
    assert (dp s1 = dp s + 1) as Hd1 by (by subst s1).
    assert (f = Dump (pc s + 1) (env s)) as ->.
    { rewrite IHd1, Hd1, Z.add_simpl_r, IHf1 in Hf by lia.
      subst s1. simpl in Hf. rewrite zget_zset_eq in Hf by done.
      by injection Hf as <-. }
    assert (env s3 = env s /\ dp s3 = dp s /\ dump s3 = dump s2)
      as (He3 & Hd3 & Hdm3).
    { subst s3. simpl. rewrite IHd1, Hd1. split; [done|]. split; [lia|done]. }
    rewrite IHe, IHd, He3, Hd3. split; [done|]. split; [done|].
    intros j Hj. rewrite IHf, Hdm3, IHf1 by lia.
    subst s1. simpl. apply zget_zset_ne; unfold in_range in *; lia.
  - destruct (step_instr _ _ _ Hi Hs)
      as (cond & target & d0 & _ & Hd0 & _ & Hs1).
    destruct (step_instr _ _ _ Hi2 Hs2) as (f & Hf & Hs3).
    assert (dp s1 = dp s + 1 /\ env s1 = env s) as (Hd1 & He1)
      by (by subst s1).
    assert (env s3 = env s /\ dp s3 = dp s /\ dump s3 = dump s2)
      as (He3 & Hd3 & Hdm3).
    { subst s3. simpl. rewrite IHe1, IHd1, Hd1, He1.
      split; [done|]. split; [lia|done]. }
    rewrite IHe, IHd, He3, Hd3. split; [done|]. split; [done|].
    intros j Hj. rewrite IHf, Hdm3, IHf1 by lia.
    apply zget_Some_range in Hd0.
    subst s1. simpl. apply zget_zset_ne; unfold in_range in *; lia.
Qed.

(** [AP] on a closure whose environment is the list [ws]: the callee
    starts at the code address of the closure, in the environment
    [arg :: ws]. *)
Lemma apply_enters (s s' : state) arg cptr c cenv centry ws :
  instr_at code s = Some iAP ->
  step code s = Ok (tt, s') ->
  zget (stack s) (sp s - 1) = Some arg ->
  zget (stack s) (sp s - 2) = Some cptr ->
  cell_at (cells s) cptr = Some c ->
  c_env c = Some cenv ->
  c_code c = Some centry ->
  env_list (cells s) cenv ws ->
  pc s' = centry /\ env_list (cells s') (env s') (arg :: ws).
Proof.
  intros Hi Hs Ha Hc Hcell Hcenv Hcentry Hws.
  destruct (step_instr _ _ _ Hi Hs)
    as (arg' & cptr' & c' & cenv' & centry' & Ha' & Hc' & Hcell' & Hcenv'
        & Hcentry' & _ & ->).
  simplify_eq. simpl. split; [done|].
  apply (env_list_node _ _ (Cell (Some arg) (Some cenv) None None)
           arg cenv ws); [|done|done|by apply env_list_app].
  unfold cell_at.
  replace (Z.of_nat (length (cells s)) + 1 - 1)
    with (Z.of_nat (length (cells s))) by lia.
  apply zget_snoc.
Qed.

(** X13.  A closure made by [LDF] carries the environment [LDF] was executed
    in: whenever and wherever it is applied later, the callee starts at
    the operand of the [LDF], in that environment with the argument in
    front, whatever the environment of the caller is. *)
Theorem closure_static_scope (s s1 : state) vs :
  instr_at code s = Some iLDF ->
  step code s = Ok (tt, s1) ->
  env_list (cells s) (env s) vs ->
  exists cptr t,
    zget code (pc s + 1) = Some t /\
    zget (stack s1) (sp s) = Some cptr /\
    forall s2 s3 arg,
      reaches code s1 s2 ->
      instr_at code s2 = Some iAP ->
      zget (stack s2) (sp s2 - 1) = Some arg ->
      zget (stack s2) (sp s2 - 2) = Some cptr ->
      step code s2 = Ok (tt, s3) ->
      pc s3 = t /\ env_list (cells s3) (env s3) (arg :: vs).
Proof.
  intros Hi Hs Hvs.
  destruct (step_instr _ _ _ Hi Hs) as (t & Ht & Hsp & ->).
  set (clos := Cell None None (Some t) (Some (env s))).
  exists (Z.of_nat (length (cells s)) + 1), t.
  split; [done|]. split; [by apply zget_zset_eq|].
  intros s2 s3 arg Hr Hi2 Ha Hc Hs2.
  apply reaches_heap in Hr as (Hcells & Henvs & _). simpl in *.
  eapply (apply_enters s2 s3 arg _ clos (env s) t vs); try done.
  - apply Hcells. unfold cell_at.
    replace (Z.of_nat (length (cells s)) + 1 - 1)
      with (Z.of_nat (length (cells s))) by lia.
    apply zget_snoc.
  - by apply Henvs, env_list_app.
Qed.

(** X14.  A closure made by [LDRF]: whenever it is applied, the callee starts
    at the operand of the [LDRF] in an environment that holds the
    argument at index 0, the closure itself at index 1, and after them
    the environment [LDRF] was executed in. *)
Theorem recursive_closure_scope (s s1 : state) vs :
  instr_at code s = Some iLDRF ->
  step code s = Ok (tt, s1) ->
  env_list (cells s) (env s) vs ->
  exists cptr t,
    zget code (pc s + 1) = Some t /\
    zget (stack s1) (sp s) = Some cptr /\
    forall s2 s3 arg,
      reaches code s1 s2 ->
      instr_at code s2 = Some iAP ->
      zget (stack s2) (sp s2 - 1) = Some arg ->
      zget (stack s2) (sp s2 - 2) = Some cptr ->
      step code s2 = Ok (tt, s3) ->
      pc s3 = t /\ env_list (cells s3) (env s3) (arg :: cptr :: vs).
Proof.
  intros Hi Hs Hvs.
  destruct (step_instr _ _ _ Hi Hs) as (t & Ht & Hsp & ->).
  set (nenv := Z.of_nat (length (cells s)) + 1).
  set (node := Cell (Some (nenv + 1)) (Some (env s)) None None).
  set (clos := Cell None None (Some t) (Some nenv)).
  exists (nenv + 1), t.
  split; [done|]. split; [by apply zget_zset_eq|].
  intros s2 s3 arg Hr Hi2 Ha Hc Hs2.
  apply reaches_heap in Hr as (Hcells & Henvs & _). simpl in *.
  assert (cell_at (cells s ++ [node; clos]) nenv = Some node) as Hnode.
  { unfold cell_at, nenv.
    replace (Z.of_nat (length (cells s)) + 1 - 1)
      with (Z.of_nat (length (cells s))) by lia.
    change [node; clos] with ([node] ++ [clos]). rewrite app_assoc.
    apply zget_app_l, zget_snoc. }
  assert (cell_at (cells s ++ [node; clos]) (nenv + 1) = Some clos) as Hclos.
  { unfold cell_at, nenv.
    change [node; clos] with ([node] ++ [clos]). rewrite app_assoc.
    replace (Z.of_nat (length (cells s)) + 1 + 1 - 1)
      with (Z.of_nat (length (cells s ++ [node])))
      by (rewrite length_app; simpl; lia).
    apply zget_snoc. }
  eapply (apply_enters s2 s3 arg _ clos nenv t (nenv + 1 :: vs)); try done.
  - by apply Hcells.
  - apply Henvs. econstructor; [exact Hnode|done|done|by apply env_list_app].
Qed.

End Nesting.

(** ** [read_code] *)

Section ReadCode.
Context `{Header}.

Lemma read_loop_ended n i data (code : list Z) :
  read_loop n (File [] true) i data code = Ok (i, code).
Proof. by destruct n. Qed.



(** X16.  [read_code] on an empty text: the loop is entered once, [feof] not
    being true before a read has failed; [fscanf] converts nothing, and
    what the uninitialised [data] holds is stored as word 0; the count
    returned is 1. *)
Theorem read_code_empty (data0 : Z) (code0 : list Z) :
  0 < CODE_MAX ->
  Z.of_nat (length code0) = CODE_MAX ->
  read_code (File [] false) data0 code0 = Ok (1, zset code0 0 data0).
Proof.
  intros Hpos Hlen. unfold read_code.
  destruct (Z.to_nat CODE_MAX) as [|n] eqn:Hn; [lia|].
  cbn [read_loop feof at_eof negb andb].
  replace (0 <? CODE_MAX) with true by lia.
  cbn [fscanf_d pending]. unfold array_write.
  destruct (zget_in_range code0 0) as [old ->]; [unfold in_range; lia|].
  by rewrite read_loop_ended.
Qed.

End ReadCode.

(** ** The last slot of the stack *)

Section Capacity.
Context `{Header}.

(** X10.  A push into the last slot of the stack stores the value inside the
    segment and then fails the [assert] on [sp], which asks for
    [sp < STACK_MAX] after the increment: of the [STACK_MAX] slots the
    machine can hold [STACK_MAX - 1] values between two iterations. *)
Theorem push_at_last_slot (code : list Z) (s : state) (a : Z) :
  distinct_opcodes ->
  Z.of_nat (length (stack s)) = STACK_MAX ->
  sp s = STACK_MAX - 1 ->
  0 <= sp s ->
  zget code (pc s) = Some LDC ->
  zget code (pc s + 1) = Some a ->
  step code s = Stop (AssertFailed SpInRange) /\
  in_range (stack s) (sp s).
Proof.
  intros Hd Hlen Hsp Hpos Hop Ha.
  assert (in_range (stack s) (sp s)) as Hin by (unfold in_range; lia).
  split; [|done].
  rewrite (step_LDC code Hd s a Hop Ha Hin).
  rewrite check_bounds_fail by (unfold in_bounds; simpl; lia).
  simpl. by replace ((0 <=? sp s + 1) && (sp s + 1 <? STACK_MAX)) with false
    by lia.
Qed.

End Capacity.

(** * More of the interpreter, on the sample header *)

Lemma mkclosure_fields_witness :
  exists ptr h',
    mkclosure (H := sample_header) 6 NULL [] = Ok (ptr, h') /\
    GET_CODE ptr h' = Ok (6, h') /\ GET_ENV ptr h' = Ok (NULL, h').
Proof.
  destruct (mkclosure_fields (H := sample_header) 6 NULL [])
    as (ptr & h' & Hmk & _ & _ & Hcode & Henv & _).
  - simpl. lia.
  - exists ptr, h'. split; [exact Hmk|]. split; [exact Hcode|exact Henv].
Defined.

Lemma lookup_nth_witness :
  let h := [Cell (Some 5) (Some NULL) None None] in
  lookup 0 1 h = Ok (5, h) /\ lookup (-3) 1 h = Ok (5, h).
Proof.
  intros h.
  assert (env_list h 1 [5]) as Hl
    by (econstructor; [reflexivity..|constructor]).
  split.
  - apply (lookup_nth 0 1 h h [5] 5 Hl). split; reflexivity.
  - apply (lookup_nth (-3) 1 h h [5] 5 Hl). split; reflexivity.
Defined.

(** The body of [call_program] entered with argument 7: its [LD 0]
    pushes 7. *)
Lemma load_variable_witness :
  let code := sample_code call_program in
  let s := State 6 0 1 2 (1 :: 7 :: replicate 14 0)
             (Dump 5 0 :: replicate 15 (Dump 0 0))
             [Cell None None (Some 6) (Some 0);
              Cell (Some 7) (Some 0) None None] in
  exists s',
    step (H := sample_header) code s = Ok (tt, s') /\
    zget (stack s') (sp s) = Some 7.
Proof.
  intros code s.
  set (s' := State 8 1 1 2 (7 :: 7 :: replicate 14 0)
               (Dump 5 0 :: replicate 15 (Dump 0 0))
               [Cell None None (Some 6) (Some 0);
                Cell (Some 7) (Some 0) None None]).
  assert (step (H := sample_header) code s = Ok (tt, s')) as Hs
    by (vm_compute; reflexivity).
  destruct (load_variable (H := sample_header) code s s' [7])
    as (t & x & Ht & Hx & Htop & _).
  - reflexivity.
  - exact Hs.
  - econstructor; [reflexivity..|constructor].
  - exists s'. split; [exact Hs|].
    vm_compute in Ht. injection Ht as <-.
    vm_compute in Hx. injection Hx as <-. exact Htop.
Defined.

Lemma step_stack_effect_witness :
  exists s',
    step (H := sample_header) (sample_code call_program) call_state
    = Ok (tt, s') /\
    sp s' = sp call_state - 2.
Proof.
  destruct (step (H := sample_header) (sample_code call_program) call_state)
    as [[[] s']|] eqn:Hs; [|vm_compute in Hs; discriminate Hs].
  exists s'. split; [reflexivity|].
  rewrite (step_stack_effect (H := sample_header)
             (sample_code call_program) call_state s' iAP);
    [reflexivity|reflexivity|exact Hs].
Defined.

Lemma step_stack_below_witness :
  let s := State 0 3 0 NULL (5 :: 1 :: 2 :: replicate 13 0) sample_dump [] in
  exists s',
    step (H := sample_header) (sample_code [2]) s = Ok (tt, s') /\
    zget (stack s') 0 = Some 5.
Proof.
  intros s.
  destruct (step (H := sample_header) (sample_code [2]) s)
    as [[[] s']|] eqn:Hs; [|vm_compute in Hs; discriminate Hs].
  exists s'. split; [reflexivity|].
  rewrite (step_stack_below (H := sample_header) (sample_code [2]) s s' iADD);
    [reflexivity|reflexivity|exact Hs|simpl; lia].
Defined.

Lemma straight_line_step_witness :
  let s := initial sample_stack sample_dump [] in
  exists s',
    step (H := sample_header) (sample_code [0; 10; 11]) s = Ok (tt, s') /\
    pc s' = 2 /\ env s' = NULL /\ dp s' = 0 /\ dump s' = sample_dump.
Proof.
  intros s.
  destruct (step (H := sample_header) (sample_code [0; 10; 11]) s)
    as [[[] s']|] eqn:Hs; [|vm_compute in Hs; discriminate Hs].
  exists s'. split; [reflexivity|].
  apply (straight_line_step (H := sample_header)
           (sample_code [0; 10; 11]) s s' iLDC);
    [reflexivity|exact Hs|discriminate..].
Defined.




Lemma call_steps :
  let code := sample_code call_program in
  step (H := sample_header) code call_state = Ok (tt, call_body_state) /\
  step (H := sample_header) code call_body_state
  = Ok (tt, call_return_state) /\
  step (H := sample_header) code call_return_state
  = Ok (tt, call_after_state).
Proof. repeat split; vm_compute; reflexivity. Defined.

Lemma call_reaches :
  reaches (H := sample_header) (sample_code call_program)
    call_state call_after_state.
Proof.
  destruct call_steps as (H1 & H2 & H3).
  apply (reaches_step _ _ call_body_state _ H1).
  apply (reaches_step _ _ call_return_state _ H2).
  apply (reaches_step _ _ call_after_state _ H3).
  apply reaches_here.
Defined.

(** After the call of [call_program] the closure is the cell it was. *)
Lemma environments_persist_witness :
  cell_at (cells call_after_state) 1
  = Some (Cell None None (Some 6) (Some NULL)).
Proof.
  destruct (environments_persist (H := sample_header)
              (sample_code call_program) call_state call_after_state
              call_reaches) as (Hcells & _ & _).
  apply Hcells. reflexivity.
Defined.

(** The call of [call_program] is balanced: after it the environment and
    the dump depth are those of [call_state]. *)
Lemma balanced_restores_witness :
  balanced (H := sample_header) (sample_code call_program)
    call_state call_after_state /\
  env call_after_state = env call_state /\
  dp call_after_state = dp call_state.
Proof.
  destruct call_steps as (H1 & H2 & H3).
  assert (balanced (H := sample_header) (sample_code call_program)
            call_state call_after_state) as Hbal.
  { apply (balanced_call _ call_state call_body_state call_return_state
             call_after_state call_after_state);
      [reflexivity|exact H1| |reflexivity|exact H3|apply balanced_here].
    apply (balanced_plain _ call_body_state call_return_state
             call_return_state iLD);
      [reflexivity|discriminate..|exact H2|apply balanced_here]. }
  split; [exact Hbal|].
  destruct (balanced_restores (H := sample_header) _ _ _ Hbal)
    as (He & Hd & _).
  split; [exact He|exact Hd].
Defined.

(** [call_program] from the start: the closure made by its [LDF 6] is
    applied to 7, and the body starts at 6 in the environment [[7]]. *)
Lemma closure_static_scope_witness :
  pc call_body_state = 6 /\
  env_list (cells call_body_state) (env call_body_state) [7].
Proof.
  set (code := sample_code call_program).
  set (s0 := initial sample_stack sample_dump []).
  set (s1 := State 2 1 0 NULL (1 :: replicate 15 0) sample_dump
               [Cell None None (Some 6) (Some NULL)]).
  assert (step (H := sample_header) code s0 = Ok (tt, s1)) as H0
    by (vm_compute; reflexivity).
  assert (step (H := sample_header) code s1 = Ok (tt, call_state)) as H1
    by (vm_compute; reflexivity).
  destruct call_steps as (H2 & _).
  destruct (closure_static_scope (H := sample_header) code s0 s1 [])
    as (cptr & t & Ht & Htop & Hcall).
  - reflexivity.
  - exact H0.
  - constructor.
  - vm_compute in Ht. injection Ht as <-.
    vm_compute in Htop. injection Htop as <-.
    apply (Hcall call_state call_body_state 7).
    + eapply reaches_step; [exact H1|apply reaches_here].
    + reflexivity.
    + reflexivity.
    + reflexivity.
    + exact H2.
Defined.

(** [LDRF 6; LDC 5; AP]: the body starts at 6 in the environment
    [[5; 2]], cell 2 being the closure. *)
Lemma recursive_closure_scope_witness :
  let s3 := State 6 0 1 3 (2 :: 5 :: replicate 14 0)
              (Dump 5 0 :: replicate 15 (Dump 0 0))
              [Cell (Some 2) (Some NULL) None None;
               Cell None None (Some 6) (Some 1);
               Cell (Some 5) (Some 1) None None] in
  pc s3 = 6 /\ env_list (cells s3) (env s3) [5; 2].
Proof.
  intros s3.
  set (code := sample_code [7; 6; 0; 5; 8; 11; 1; 1; 9]).
  set (s0 := initial sample_stack sample_dump []).
  set (h1 := [Cell (Some 2) (Some NULL) None None;
              Cell None None (Some 6) (Some 1)]).
  set (s1 := State 2 1 0 NULL (2 :: replicate 15 0) sample_dump h1).
  set (s2 := State 4 2 0 NULL (2 :: 5 :: replicate 14 0) sample_dump h1).
  assert (step (H := sample_header) code s0 = Ok (tt, s1)) as H0
    by (vm_compute; reflexivity).
  assert (step (H := sample_header) code s1 = Ok (tt, s2)) as H1
    by (vm_compute; reflexivity).
  assert (step (H := sample_header) code s2 = Ok (tt, s3)) as H2
    by (vm_compute; reflexivity).
  destruct (recursive_closure_scope (H := sample_header) code s0 s1 [])
    as (cptr & t & Ht & Htop & Hcall).
  - reflexivity.
  - exact H0.
  - constructor.
  - vm_compute in Ht. injection Ht as <-.
    vm_compute in Htop. injection Htop as <-.
    apply (Hcall s2 s3 5).
    + eapply reaches_step; [exact H1|apply reaches_here].
    + reflexivity.
    + reflexivity.
    + reflexivity.
    + exact H2.
Defined.


Lemma read_code_empty_witness :
  read_code (H := sample_header) (File [] false) 99 (replicate 64 0)
  = Ok (1, 99 :: replicate 63 0).
Proof.
  rewrite (read_code_empty (H := sample_header) 99 (replicate 64 0)).
  - reflexivity.
  - simpl. lia.
  - reflexivity.
Defined.

Lemma push_at_last_slot_witness :
  step (H := sample_header) (sample_code [0; 10; 11])
    (State 0 15 0 NULL sample_stack sample_dump [])
  = Stop (AssertFailed SpInRange).
Proof.
  apply (push_at_last_slot (H := sample_header) (sample_code [0; 10; 11])
           (State 0 15 0 NULL sample_stack sample_dump []) 10).
  - exact sample_distinct.
  - reflexivity.
  - reflexivity.
  - simpl. lia.
  - reflexivity.
  - reflexivity.
Defined.
